(** * Verification of [io_scene_godot/converters/simple_nodes.py]

    A shallow embedding of the single-function exporters of the Godot
    Blender exporter (empties, cameras, lights and the lookup of linked
    external scenes) and of its two shader node helpers, together with
    the properties its specification states about them and further
    properties read off the code.

    Conventions of the embedding:
    - Python [float] is IEEE binary64, embedded as Rocq's primitive [float];
    - the exporter runs against a shared, mutable scene file, a logger and
      the animation exporter: these are threaded through a [World], and a
      function that can raise returns a [Result];
    - what the file imports from [os], [re], [math] and from the sibling
      modules [structures] and [animation] is either a parameter (the
      classes [Host], [OS] and [Animation]) or modelled next to its first
      use. *)

From Stdlib Require Import ZArith QArith Floats String Ascii List DecimalString DecimalNat
  Lia Lqa.
From stdpp Require Import base gmap strings list.

Set Warnings "-inexact-float,-register-all".
Local Open Scope string_scope.

(* String concatenation computes on a literal or a constructor. *)
#[local] Arguments String.append !_ _ / : simpl nomatch.

(** ** Strings: [in], [re.match] and [str.format] *)

(** [sub in s] on Python strings: [sub] occurs somewhere in [s]. *)
Fixpoint str_contains (sub s : string) : bool :=
  String.prefix sub s ||
  match s with
  | EmptyString => false
  | String _ s' => str_contains sub s'
  end.

Definition newline : ascii := Ascii.ascii_of_nat 10.

(** [\.[te]scn] matched at the start of [s]: the text it matches. *)
Definition scene_suffix_at (s : string) : option string :=
  if String.prefix ".tscn" s then Some ".tscn"
  else if String.prefix ".escn" s then Some ".escn"
  else None.

(** [re.match('(.*\.[te]scn)', s)], returning [match.group(1)].

    [re.match] anchors the pattern at the start of [s] only; [.] matches
    every character but a newline and [*] is greedy, so the group is the
    longest prefix of [s] that ends in [.tscn] or [.escn] and whose part
    before that suffix has no newline.  [None] is Python's [None]. *)
Fixpoint re_match_scene (s : string) : option string :=
  match s with
  | EmptyString => None
  | String c s' =>
      if Ascii.eqb c newline then None
      else match re_match_scene s' with
           | Some g => Some (String c g)
           | None => scene_suffix_at s
           end
  end.

(** Truth value of a Python string: the empty string is false. *)
Definition py_bool_str (s : string) : bool :=
  match s with EmptyString => false | String _ _ => true end.

(** ["ExtResource({})".format(resource_id)] *)
Definition ext_resource_token (resource_id : nat) : string :=
  "ExtResource(" +:+ NilZero.string_of_uint (Nat.to_uint resource_id) +:+ ")".

(** ** Floating-point helpers of [math] *)

Definition float_pi : float := 0x1.921fb54442d18p+1%float.

(** [math.degrees(x)]: CPython multiplies by the constant [180.0 / pi]. *)
Definition math_degrees (x : float) : float := (x * (180 / float_pi))%float.

(** ** Values, nodes and the scene file *)

(** What the exporter takes from the host application and from
    [structures]: the types [mathutils.Matrix] and [mathutils.Color], and
    the two pure helpers [fix_directional_transform] and [gamma_correct],
    whose code is not part of this file. *)
Class Host := {
  Matrix : Type;
  Color : Type;
  fix_directional_transform : Matrix -> Matrix;
  gamma_correct : Color -> Color;
}.

Section Model.

Context `{Host}.

(** Python values that flow from data blocks into node attributes. *)
Inductive value :=
  | VFloat (x : float)
  | VInt (n : Z)
  | VBool (b : bool)
  | VStr (s : string)
  | VColor (c : Color)
  | VMatrix (m : Matrix).

(** Modelled from the spec: the kind of a node record.  The classes
    [structures.NodeTemplate] and [structures.InstanceTemplate] are not
    part of this file; a node is of a named type, or an instance of the
    external resource a token refers to. *)
Inductive Heading :=
  | HType (type : string)
  | HInstance (instance : string).

(** Modelled from the spec: a node record is identified by its name, its
    kind and its parent (a node, or [None] for the root); it holds a
    mapping from attribute name to value, with unique keys. *)
Inductive Node :=
  | mkNode (node_name : string) (heading : Heading)
           (parent : option Node) (attrs : gmap string value).

Definition node_name (n : Node) : string := let 'mkNode x _ _ _ := n in x.
Definition node_heading (n : Node) : Heading := let 'mkNode _ h _ _ := n in h.
Definition node_parent (n : Node) : option Node := let 'mkNode _ _ p _ := n in p.
Definition node_attrs (n : Node) : gmap string value := let 'mkNode _ _ _ a := n in a.

(** Modelled from the spec: [NodeTemplate(name, type, parent)], a new
    node with no attribute. *)
Definition NodeTemplate (name type : string) (parent : option Node) : Node :=
  mkNode name (HType type) parent ∅.

(** Modelled from the spec: [InstanceTemplate(name, instance, parent)],
    a new instance node with no attribute. *)
Definition InstanceTemplate (name instance : string) (parent : option Node) : Node :=
  mkNode name (HInstance instance) parent ∅.

(** Modelled from the spec: [node[key] = v], the last write wins. *)
Definition node_set (key : string) (v : value) (n : Node) : Node :=
  let 'mkNode x h p a := n in mkNode x h p (<[key := v]> a).

(** Modelled from the spec: [NodeTemplate.get_type()], the type name of
    the node. *)
Definition get_type (n : Node) : option string :=
  match node_heading n with HType t => Some t | HInstance _ => None end.

(** Modelled from the spec: [structures.ExternalResource(path, type)] is
    not part of this file.  An external resource reference is a path and
    a declared type. *)
Record ExternalResource := mkExternalResource {
  res_path : string;
  res_type : string;
}.

(** Modelled from the spec: the scene file class [structures.ESCNFile] is
    not part of this file.  The document stores the nodes added so far,
    the external resources registered so far and the identifier
    registered under each logical name; [add_external_resource] hands
    out a fresh identifier, the position of the new resource. *)
Record Document := mkDocument {
  nodes : list Node;
  external_resources : list ExternalResource;
  external_hashes : gmap string nat;
}.

(** Modelled from the spec: [get_external_resource(logical_name)], the
    identifier registered under the name, or [None]. *)
Definition doc_get_external_resource (d : Document) (hashable : string) : option nat :=
  external_hashes d !! hashable.

(** Modelled from the spec: [add_external_resource(resource,
    logical_name)] registers the resource under the name and returns its
    fresh identifier. *)
Definition doc_add_external_resource (d : Document) (item : ExternalResource)
    (hashable : string) : nat * Document :=
  let index := S (List.length (external_resources d)) in
  (index,
   {| nodes := nodes d;
      external_resources := external_resources d ++ [item];
      external_hashes := <[hashable := index]> (external_hashes d) |}).

(** Modelled from the spec: [add_node(node)]. *)
Definition doc_add_node (d : Document) (n : Node) : Document :=
  {| nodes := nodes d ++ [n];
     external_resources := external_resources d;
     external_hashes := external_hashes d |}.

(** ** Source entities *)

(** A Blender object: [node.name], [node.matrix_local], [node.data]. *)
Record Object (D : Type) := mkObject {
  name : string;
  matrix_local : Matrix;
  data : D;
}.
Arguments name {D} _.
Arguments matrix_local {D} _.
Arguments data {D} _.

(** [bpy.types.Camera], the attributes this file reads. *)
Record Camera := mkCamera {
  cam_type : string;
  cam_angle : float;
  cam_clip_end : float;
  cam_clip_start : float;
  cam_ortho_scale : float;
}.

Record CyclesLightSettings := mkCycles { cast_shadow : bool }.

(** [bpy.types.Light], the attributes this file reads. *)
Record Light := mkLight {
  light_type : string;
  light_energy : float;
  light_specular_factor : float;
  light_color : Color;
  light_shadow_color : Color;
  light_cutoff_distance : float;
  light_spot_size : float;
  light_spot_blend : float;
  light_use_shadow : bool;
  light_cycles : CyclesLightSettings;
}.

(** The data block handed to the animation exporter. *)
Inductive DataBlock :=
  | CameraData (c : Camera)
  | LightData (l : Light).

(** [export_settings], the options this file reads.  [project_path_func]
    is a thunk; [None] is Python's [None]. *)
Record ExportSettings := mkSettings {
  object_types : gset string;
  material_search_paths : string;
  project_path_func : unit -> option string;
  path : string;
}.

(** ** The world the exporters run in *)

(** The exceptions the code of this file can raise. *)
Inductive exn :=
  | AttributeError (attr : string)
  | TypeError
  | ZeroDivisionError.

(** The outcome of a call: a value, or an exception. *)
Inductive Result (A : Type) :=
  | Ok (a : A)
  | Raise (e : exn).
Arguments Ok {A} _.
Arguments Raise {A} _.

(** One call of [animation.export_animation_data]. *)
Record AnimCall := mkAnimCall {
  anim_target : option Node;
  anim_data : DataBlock;
  anim_category : string;
}.

(** The scene file under construction, the warnings logged so far and
    the calls made to the animation exporter so far. *)
Record World := mkWorld {
  doc : Document;
  warnings : list string;
  anim_calls : list AnimCall;
}.

(** A computation of the exporters: it runs in a world and leaves its
    outcome and the world it made. *)
Definition M (A : Type) : Type := World -> Result A * World.

Definition ret {A} (a : A) : M A := fun w => (Ok a, w).

(** Sequencing: an exception skips the rest, the effects made before it
    stay. *)
Definition bind {A B} (k : A -> M B) (m : M A) : M B :=
  fun w => match m w with
           | (Ok a, w') => k a w'
           | (Raise e, w') => (Raise e, w')
           end.

#[global] Instance M_ret : MRet M := @ret.
#[global] Instance M_bind : MBind M := @bind.

(** A pure step that can raise. *)
Definition lift {A} (r : Result A) : M A := fun w => (r, w).

End Model.

Arguments Ok {A} _.
Arguments Raise {A} _.
Arguments name {_ D} _.
Arguments matrix_local {_ D} _.
Arguments data {_ D} _.

(** What the exporter takes from [os] and from the file system: the
    triples [os.walk] yields below a folder, [os.path.join],
    [os.path.dirname], and the first line [open(p).readline()] of the
    file at a path.  The file system is read only and every file the
    walk lists can be opened and decoded: a failing [open] is outside
    this model. *)
Class OS := {
  os_walk : string -> list (string * list string * list string);
  os_path_join : string -> string -> string;
  os_path_dirname : string -> string;
  open_readline : string -> string;
}.

(** The effect of [animation.export_animation_data] on the scene file;
    its code is not part of this file.  It is taken to return, and to
    leave the node it is given as it is. *)
Class Animation `{Host} := {
  animation_effect :
    Document -> ExportSettings -> option Node -> DataBlock -> string -> Document;
}.

(** ** The exporters *)

Section Exporters.

Context `{Host} `{OS} `{!Animation}.

(** [logging.warning(msg)] *)
Definition logging_warning (msg : string) : M unit :=
  fun w => (Ok tt, {| doc := doc w;
                      warnings := warnings w ++ [msg];
                      anim_calls := anim_calls w |}).

(** [escn_file.get_external_resource(hashable)] *)
Definition get_external_resource (hashable : string) : M (option nat) :=
  fun w => (Ok (doc_get_external_resource (doc w) hashable), w).

(** [escn_file.add_external_resource(item, hashable)] *)
Definition add_external_resource (item : ExternalResource) (hashable : string) : M nat :=
  fun w => let '(index, d) := doc_add_external_resource (doc w) item hashable in
           (Ok index, {| doc := d;
                         warnings := warnings w;
                         anim_calls := anim_calls w |}).

(** [escn_file.add_node(node)] *)
Definition add_node (n : Node) : M unit :=
  fun w => (Ok tt, {| doc := doc_add_node (doc w) n;
                      warnings := warnings w;
                      anim_calls := anim_calls w |}).

(** [export_animation_data(escn_file, export_settings, target, data, category)]:
    the call is recorded and its effect on the scene file applied. *)
Definition export_animation_data (export_settings : ExportSettings)
    (target : option Node) (block : DataBlock) (category : string) : M unit :=
  fun w => (Ok tt,
            {| doc := animation_effect (doc w) export_settings target block category;
               warnings := warnings w;
               anim_calls := anim_calls w ++ [mkAnimCall target block category] |}).

(** The first loop of [_find_scene_in_subtree]: one candidate per walked
    directory that lists [scene_filename], in walk order. *)
Definition scene_candidates (folder scene_filename : string) : list string :=
  flat_map (fun '(dir_path, _subdirs, files) =>
              if bool_decide (scene_filename ∈ files)
              then [os_path_join dir_path scene_filename] else [])
           (os_walk folder).

(** The test of the second loop: ["gd_scene" in first_line]. *)
Definition is_scene_file (candidate : string) : bool :=
  str_contains "gd_scene" (open_readline candidate).

(** The second loop of [_find_scene_in_subtree]. *)
Definition valid_scene_candidates (candidates : list string) : list (string * string) :=
  flat_map (fun candidate =>
              if is_scene_file candidate then [(candidate, "PackedScene")] else [])
           candidates.

Definition _find_scene_in_subtree (folder scene_filename : string)
    : M (option (string * string)) :=
  let candidates := scene_candidates folder scene_filename in
  let valid_candidates := valid_scene_candidates candidates in
  match valid_candidates with
  | [] => mret None
  | first :: _ =>
      (if decide (1 < List.length valid_candidates)
       then logging_warning ("Multiple scenes found for " +:+ scene_filename)
       else mret tt);;
      mret (Some first)
  end.

Definition find_scene (export_settings : ExportSettings) (scene_filename : string)
    : M (option (string * string)) :=
  let search_type := material_search_paths export_settings in
  let search_dir :=
    if String.eqb search_type "PROJECT_DIR" then project_path_func export_settings tt
    else if String.eqb search_type "EXPORT_DIR"
         then Some (os_path_dirname (path export_settings))
         else None in
  match search_dir with
  | None => mret None
  | Some search_dir => _find_scene_in_subtree search_dir scene_filename
  end.

Definition use_external_scene (export_settings : ExportSettings) (scene_name : string)
    : M (option string) :=
  external_scene ← find_scene export_settings scene_name;
  match external_scene with
  | Some (scene_path, scene_type) =>
      resource_id ← get_external_resource scene_name;
      resource_id ← match resource_id with
                    | None =>
                        let ext_scene := mkExternalResource scene_path scene_type in
                        add_external_resource ext_scene scene_name
                    | Some resource_id => mret resource_id
                    end;
      mret (Some (ext_resource_token resource_id))
  | None =>
      logging_warning ("Unable to find '" +:+ scene_name +:+ "' in project");;
      mret None
  end.

(** The last four lines of [export_empty_node], reached when no instance
    node was returned: the generic spatial node. *)
Definition export_spatial_node {D} (node : Object D) (parent_gd_node : option Node)
    : M (option Node) :=
  let empty_node := NodeTemplate (name node) "Spatial" parent_gd_node in
  let empty_node := node_set "transform" (VMatrix (matrix_local node)) empty_node in
  add_node empty_node;;
  mret (Some empty_node).

Definition export_empty_node {D} (export_settings : ExportSettings)
    (node : Object D) (parent_gd_node : option Node) : M (option Node) :=
  if bool_decide ("EMPTY" ∉ object_types export_settings) then mret parent_gd_node
  else
    match re_match_scene (name node) with
    | Some scene_name =>
        instance ← use_external_scene export_settings scene_name;
        match instance with
        | Some instance =>
            if py_bool_str instance then
              let instance_node := InstanceTemplate (name node) instance parent_gd_node in
              let instance_node :=
                node_set "transform" (VMatrix (matrix_local node)) instance_node in
              add_node instance_node;;
              mret (Some instance_node)
            else export_spatial_node node parent_gd_node
        | None => export_spatial_node node parent_gd_node
        end
    | None => export_spatial_node node parent_gd_node
    end.

(** *** Attribute conversion tables *)

(** Modelled from the spec: [animation.AttributeConvertInfo] is not part
    of this file.  An entry is a tuple of source attribute, target
    attribute and converter, unpacked in this order by the exporters.  A
    converter is a Python callable: it can raise. *)
Record AttributeConvertInfo := mkACI {
  bl_attr : string;
  gd_attr : string;
  converter : value -> Result value;
}.

(** A converter written for numbers, applied to a value.  The numeric
    attributes the tables read are floats in Blender; on any other value
    the arithmetic of the lambda is a [TypeError]. *)
Definition on_float (f : float -> Result float) (v : value) : Result value :=
  match v with
  | VFloat x => match f x with Ok y => Ok (VFloat y) | Raise e => Raise e end
  | _ => Raise TypeError
  end.

(** Float division of Python: a zero divisor raises. *)
Definition py_div (a b : float) : Result float :=
  if (b =? 0)%float then Raise ZeroDivisionError else Ok (a / b)%float.

(** [lambda x: x] *)
Definition conv_identity (v : value) : Result value := Ok v.

(** [gamma_correct], applied to a colour attribute. *)
Definition conv_gamma_correct (v : value) : Result value :=
  match v with
  | VColor c => Ok (VColor (gamma_correct c))
  | _ => Raise TypeError
  end.

(** [lambda x: abs(x / 100.0)] *)
Definition energy_scaled (x : float) : Result float :=
  match py_div x 100 with
  | Ok y => Ok (abs y)
  | Raise e => Raise e
  end.

(** The builtin [abs]. *)
Definition py_abs (v : value) : Result value :=
  match v with
  | VFloat x => Ok (VFloat (abs x))
  | VInt n => Ok (VInt (Z.abs n))
  | VBool b => Ok (VInt (if b then 1 else 0))
  | _ => Raise TypeError
  end.

(** [lambda x: math.degrees(x/2)] *)
Definition spot_size_conv (x : float) : Result float :=
  match py_div x 2 with
  | Ok y => Ok (math_degrees y)
  | Raise e => Raise e
  end.

(** [lambda x: 0.2/(x + 0.01)] *)
Definition spot_blend_conv (x : float) : Result float :=
  py_div 0.2 (x + 0.01).

Definition _cam_attr_conv : list AttributeConvertInfo :=
  [ mkACI "clip_end" "far" conv_identity;
    mkACI "clip_start" "near" conv_identity;
    mkACI "ortho_scale" "size" conv_identity ].

Definition _light_attr_conv : list AttributeConvertInfo :=
  [ mkACI "specular_factor" "light_specular" conv_identity;
    mkACI "color" "light_color" conv_gamma_correct;
    mkACI "shadow_color" "shadow_color" conv_gamma_correct ].

Definition _omni_attr_conv : list AttributeConvertInfo :=
  [ mkACI "energy" "light_energy" (on_float energy_scaled);
    mkACI "cutoff_distance" "omni_range" conv_identity ].

Definition _spot_attr_conv : list AttributeConvertInfo :=
  [ mkACI "energy" "light_energy" (on_float energy_scaled);
    mkACI "spot_size" "spot_angle" (on_float spot_size_conv);
    mkACI "spot_blend" "spot_angle_attenuation" (on_float spot_blend_conv);
    mkACI "cutoff_distance" "spot_range" conv_identity ].

Definition _directional_attr_conv : list AttributeConvertInfo :=
  [ mkACI "energy" "light_energy" py_abs ].

(** [CameraNode(name, parent)] *)
Definition CameraNode (name : string) (parent : option Node) : Node :=
  NodeTemplate name "Camera" parent.

(** [CameraNode.attribute_conversion] *)
Definition camera_attribute_conversion (self : Node) : list AttributeConvertInfo :=
  _cam_attr_conv.

(** [LightNode(name, type, parent)]: the class adds no constructor. *)
Definition LightNode (name type : string) (parent : option Node) : Node :=
  NodeTemplate name type parent.

(** [LightNode.attribute_conversion] *)
Definition light_attribute_conversion (self : Node) : list AttributeConvertInfo :=
  if decide (get_type self = Some "OmniLight")
  then _light_attr_conv ++ _omni_attr_conv
  else if decide (get_type self = Some "SpotLight")
  then _light_attr_conv ++ _spot_attr_conv
  else if decide (get_type self = Some "DirectionalLight")
  then _light_attr_conv ++ _directional_attr_conv
  else _light_attr_conv.

(** [getattr(camera, attr)] *)
Definition camera_getattr (camera : Camera) (attr : string) : Result value :=
  if String.eqb attr "type" then Ok (VStr (cam_type camera))
  else if String.eqb attr "angle" then Ok (VFloat (cam_angle camera))
  else if String.eqb attr "clip_end" then Ok (VFloat (cam_clip_end camera))
  else if String.eqb attr "clip_start" then Ok (VFloat (cam_clip_start camera))
  else if String.eqb attr "ortho_scale" then Ok (VFloat (cam_ortho_scale camera))
  else Raise (AttributeError attr).

(** [getattr(light, attr)] *)
Definition light_getattr (light : Light) (attr : string) : Result value :=
  if String.eqb attr "type" then Ok (VStr (light_type light))
  else if String.eqb attr "energy" then Ok (VFloat (light_energy light))
  else if String.eqb attr "specular_factor" then Ok (VFloat (light_specular_factor light))
  else if String.eqb attr "color" then Ok (VColor (light_color light))
  else if String.eqb attr "shadow_color" then Ok (VColor (light_shadow_color light))
  else if String.eqb attr "cutoff_distance" then Ok (VFloat (light_cutoff_distance light))
  else if String.eqb attr "spot_size" then Ok (VFloat (light_spot_size light))
  else if String.eqb attr "spot_blend" then Ok (VFloat (light_spot_blend light))
  else if String.eqb attr "use_shadow" then Ok (VBool (light_use_shadow light))
  else Raise (AttributeError attr).

(** The table loop of both exporters:
    [for item in table: node[gd_attr] = converter(getattr(data, bl_attr))]. *)
Fixpoint apply_attribute_conversion (getattr : string -> Result value)
    (table : list AttributeConvertInfo) (gd_node : Node) : Result Node :=
  match table with
  | [] => Ok gd_node
  | item :: rest =>
      match getattr (bl_attr item) with
      | Raise e => Raise e
      | Ok v =>
          match converter item v with
          | Raise e => Raise e
          | Ok v' => apply_attribute_conversion getattr rest (node_set (gd_attr item) v' gd_node)
          end
      end
  end.

Definition export_camera_node (export_settings : ExportSettings)
    (node : Object Camera) (parent_gd_node : option Node) : M Node :=
  let cam_node := CameraNode (name node) parent_gd_node in
  let camera := data node in
  cam_node ← lift (apply_attribute_conversion (camera_getattr camera)
                     (camera_attribute_conversion cam_node) cam_node);
  let cam_node :=
    if String.eqb (cam_type camera) "PERSP"
    then node_set "projection" (VInt 0) cam_node
    else node_set "projection" (VInt 1) cam_node in
  let cam_node := node_set "fov" (VFloat (math_degrees (cam_angle camera))) cam_node in
  let cam_node :=
    node_set "transform" (VMatrix (fix_directional_transform (matrix_local node))) cam_node in
  add_node cam_node;;
  export_animation_data export_settings (Some cam_node) (CameraData (data node)) "camera";;
  mret cam_node.

Definition bl_light_to_gd_light : gmap string string :=
  {[ "POINT" := "OmniLight"; "SPOT" := "SpotLight"; "SUN" := "DirectionalLight" ]}.

Definition export_light_node (export_settings : ExportSettings)
    (node : Object Light) (parent_gd_node : option Node) : M (option Node) :=
  let light := data node in
  light_node ← match bl_light_to_gd_light !! light_type light with
               | Some gd_type => mret (Some (LightNode (name node) gd_type parent_gd_node))
               | None =>
                   logging_warning
                     ("Unknown light type. Use Point, Spot or Sun: " +:+ name node);;
                   mret None
               end;
  light_node ← match light_node with
               | Some light_node =>
                   light_node ← lift (apply_attribute_conversion (light_getattr light)
                                        (light_attribute_conversion light_node) light_node);
                   let light_node :=
                     node_set "transform"
                       (VMatrix (fix_directional_transform (matrix_local node))) light_node in
                   let light_node :=
                     node_set "light_negative"
                       (VBool (light_energy light <? 0)%float) light_node in
                   let light_node :=
                     node_set "shadow_enabled"
                       (VBool (light_use_shadow light && cast_shadow (light_cycles light)))
                       light_node in
                   add_node light_node;;
                   mret (Some light_node)
               | None => mret None
               end;
  export_animation_data export_settings light_node (LightData (data node)) "light";;
  mret light_node.

(** *** Shader node helpers *)

(** A socket of a shader node, the attributes this file reads:
    [inp.name] and [inp.default_value]. *)
Record NodeSocket := mkNodeSocket {
  socket_name : string;
  default_value : value;
}.

(** A node of a shader node tree, the attributes this file reads:
    [node.bl_idname] and [node.inputs]. *)
Record ShaderNode := mkShaderNode {
  bl_idname : string;
  inputs : list NodeSocket;
}.

(** A shader node tree: [node_tree.nodes]. *)
Record NodeTree := mkNodeTree {
  tree_nodes : list ShaderNode;
}.

(** The loop of [find_shader_node] returns at the first node whose
    [bl_idname] is the name; [List.find] is that loop. *)
Definition find_shader_node (node_tree : NodeTree) (name : string)
    : M (option ShaderNode) :=
  match List.find (fun node => String.eqb (bl_idname node) name) (tree_nodes node_tree) with
  | Some node => mret (Some node)
  | None =>
      logging_warning (name +:+ " node not found");;
      mret None
  end.

(** The loop of [node_input] returns the default value of the first
    input with the name. *)
Definition node_input (node : ShaderNode) (name : string) : M (option value) :=
  match List.find (fun inp => String.eqb (socket_name inp) name) (inputs node) with
  | Some inp => mret (Some (default_value inp))
  | None =>
      logging_warning (name +:+ " input not found in " +:+ bl_idname node);;
      mret None
  end.

End Exporters.

(** ** Vocabulary of the statements *)


(** No character of [s] is a newline. *)
Fixpoint newline_free (s : string) : bool :=
  match s with
  | EmptyString => true
  | String c s' => negb (Ascii.eqb c newline) && newline_free s'
  end.

(** The world [w] after logging the warnings [msgs] and nothing else. *)
Definition log_more `{Host} (w : World) (msgs : list string) : World :=
  {| doc := doc w; warnings := warnings w ++ msgs; anim_calls := anim_calls w |}.

(** The world [w] with its scene file replaced by [d]. *)
Definition with_doc `{Host} (w : World) (d : Document) : World :=
  {| doc := d; warnings := warnings w; anim_calls := anim_calls w |}.

(** The attributes every light gets from [_light_attr_conv]. *)
Definition common_light_attrs `{Host} (light : Light) (light_node : Node) : Node :=
  node_set "shadow_color" (VColor (gamma_correct (light_shadow_color light)))
    (node_set "light_color" (VColor (gamma_correct (light_color light)))
       (node_set "light_specular" (VFloat (light_specular_factor light)) light_node)).

(** The entries of a table that read [energy] or write [light_energy]. *)
Definition energy_entries `{Host} (table : list AttributeConvertInfo)
    : list AttributeConvertInfo :=
  List.filter (fun item => String.eqb (bl_attr item) "energy" ||
                           String.eqb (gd_attr item) "light_energy") table.

(** The spot blend expression [0.2/(x + 0.01)] of [_spot_attr_conv] read
    in exact rational arithmetic instead of binary64. *)
Definition spot_blend_exact (x : Q) : Q := ((2 # 10) / (x + (1 # 100)))%Q.

(** ** Vocabulary of the binary64 proofs

    The operations of [SpecFloat] round a positive value given as a
    mantissa, an exponent and the location of the value in the cell above
    the mantissa.  The values are scaled by [2^-emin], which makes every
    finite double an integer. *)

Local Open Scope Z_scope.

(** The value of a finite double, scaled by [2^-emin]: an integer. *)
Definition fval (m : positive) (e : Z) : Z := Z.pos m * 2 ^ (e - emin).

(** Where a rational [t] lies in the unit cell above the integer [m]. *)
Definition incell (m : Z) (l : location) (t : Q) : Prop :=
  match l with
  | loc_Exact => (t == inject_Z m)%Q
  | loc_Inexact Lt => (inject_Z m < t)%Q /\ (t < inject_Z m + (1 # 2))%Q
  | loc_Inexact Eq => (t == inject_Z m + (1 # 2))%Q
  | loc_Inexact Gt => (inject_Z m + (1 # 2) < t)%Q /\ (t < inject_Z m + 1)%Q
  end.

(** [2^k] as a rational. *)
Definition P2 (k : Z) : Q := inject_Z (2 ^ k).

(** The cell [(m, e, l)] holds the value [V], scaled by [2^-emin]. *)
Definition represents (m e : Z) (l : location) (V : Q) : Prop :=
  incell m l (V / P2 (e - emin)).

(** A mantissa and exponent as [binary_round_aux] expects them. *)
Definition round_input (m e : Z) : Prop :=
  0 < m /\ emin <= e /\ e <= fexp prec emax (Zdigits2 m + e).

(** A mantissa and exponent in canonical form, before the overflow
    test. *)
Definition canonical_cell (m e : Z) : Prop :=
  0 < m /\ emin <= e /\ m < 2 ^ prec /\ (emin < e -> 2 ^ (prec - 1) <= m).

(** The value of a double that is zero or positive and finite. *)
Definition sfval (x : spec_float) : Z :=
  match x with
  | S754_finite false m e => fval m e
  | _ => 0
  end.

(** A double that is a zero or positive and finite. *)
Definition nonneg_finite (x : spec_float) : Prop :=
  match x with
  | S754_zero _ => True
  | S754_finite false m e => bounded prec emax m e = true
  | _ => False
  end.

(** A mantissa with all [prec] digits. *)
Definition normal_mantissa (m : positive) : Prop :=
  2 ^ (prec - 1) <= Z.pos m < 2 ^ prec.

(** The exact quotient of two positive finite doubles, scaled by
    [2^-emin]. *)
Definition quotient_value (ma : positive) (ea : Z) (md : positive) (ed : Z) : Q :=
  (inject_Z (fval ma ea * 2 ^ (- emin)) / inject_Z (fval md ed))%Q.

Local Close Scope Z_scope.

(** ** A concrete project, used to run the exporters

    A host whose matrices and colours are integer codes, a project
    directory with two sub-directories, and an animation exporter that
    adds a player node for a real target and does nothing for [None]. *)

Definition ex_host : Host :=
  {| Matrix := Z; Color := Z;
     fix_directional_transform := fun m => (- m)%Z;
     gamma_correct := fun c => (2 * c)%Z |}.

Definition ex_walk (folder : string) : list (string * list string * list string) :=
  if String.eqb folder "/proj"
  then [ ("/proj", ["levels"; "props"], ["project.godot"; "tree.tscn"]);
         ("/proj/levels", [], ["tree.tscn"; "rock.escn"; "hut.tscn"]);
         ("/proj/props", [], ["tree.tscn"; "rock.escn"; "hut.tscn"]) ]
  else [].

Definition ex_readline (p : string) : string :=
  if String.eqb p "/proj/tree.tscn" then "; a text file"
  else if String.eqb p "/proj/levels/tree.tscn" then "[gd_scene load_steps=2 format=2]"
  else if String.eqb p "/proj/props/tree.tscn" then "[gd_scene load_steps=5 format=2]"
  else if String.eqb p "/proj/props/rock.escn" then "[gd_scene format=2]"
  else "".

(** The part of a path before its last slash, if it has one. *)
Fixpoint ex_split_dir (p : string) : option string :=
  match p with
  | EmptyString => None
  | String c p' =>
      match ex_split_dir p' with
      | Some d => Some (String c d)
      | None => if Ascii.eqb c "/" then Some "" else None
      end
  end.

Definition ex_dirname (p : string) : string :=
  match ex_split_dir p with
  | Some "" => "/"
  | Some d => d
  | None => ""
  end.

Definition ex_os : OS :=
  {| os_walk := ex_walk;
     os_path_join := fun a b => a +:+ "/" +:+ b;
     os_path_dirname := ex_dirname;
     open_readline := ex_readline |}.

Definition ex_animation : @Animation ex_host :=
  {| animation_effect := fun d _ target _ _ =>
       match target with
       | None => d
       | Some n => doc_add_node d (NodeTemplate "AnimationPlayer" "AnimationPlayer" (Some n))
       end |}.

Definition ex_settings : ExportSettings :=
  {| object_types := {[ "EMPTY"; "CAMERA"; "LIGHT" ]};
     material_search_paths := "PROJECT_DIR";
     project_path_func := fun _ => Some "/proj";
     path := "/proj/out.escn" |}.

(** The same settings with empties filtered out. *)
Definition ex_settings_no_empty : ExportSettings :=
  {| object_types := {[ "CAMERA"; "LIGHT" ]};
     material_search_paths := "PROJECT_DIR";
     project_path_func := fun _ => Some "/proj";
     path := "/proj/out.escn" |}.

Definition ex_world : @World ex_host :=
  {| doc := {| nodes := []; external_resources := []; external_hashes := ∅ |};
     warnings := [];
     anim_calls := [] |}.

Definition ex_empty (n : string) : @Object ex_host unit :=
  @mkObject ex_host unit n 7%Z tt.

Definition ex_light (kind : string) : @Object ex_host (@Light ex_host) :=
  @mkObject ex_host _ "Lamp" 7%Z
    (@mkLight ex_host kind (-250)%float 1%float 3%Z 0%Z 40%float
       0x1.921fb54442d18p+0%float 0.15%float true (mkCycles true)).

Definition ex_camera (kind : string) : @Object ex_host Camera :=
  @mkObject ex_host _ "Camera" 7%Z
    (mkCamera kind 0x1.921fb54442d18p-1%float 100%float 0.1%float 6%float).

(** The same settings with the search for scenes switched off. *)
Definition ex_settings_no_search : ExportSettings :=
  {| object_types := {[ "EMPTY"; "CAMERA"; "LIGHT" ]};
     material_search_paths := "NONE";
     project_path_func := fun _ => Some "/proj";
     path := "/proj/out.escn" |}.

(** A spot light with the given blend. *)
Definition ex_spot (blend : float) : @Object ex_host (@Light ex_host) :=
  @mkObject ex_host _ "Spot" 7%Z
    (@mkLight ex_host "SPOT" 800%float 1%float 3%Z 0%Z 40%float
       0x1.921fb54442d18p+0%float blend true (mkCycles false)).

(** * Properties *)

(** ** Strings *)

Lemma prefix_spec (p s : string) :
  String.prefix p s = true <-> exists r, s = p +:+ r.
Proof.
  revert s; induction p as [|a p IH]; intros s; simpl.
  - split; [intros _; now exists s | now destruct s].
  - destruct s as [|b s]; simpl.
    + split; [discriminate | intros [r Hr]; discriminate].
    + destruct (ascii_dec a b) as [->|Hab].
      * rewrite IH. split; intros [r Hr]; exists r; simpl in *; congruence.
      * split; [discriminate | intros [r Hr]; simpl in Hr; congruence].
Qed.


Lemma scene_suffix_at_spec (s suf : string) :
  scene_suffix_at s = Some suf <->
  (suf = ".tscn" \/ suf = ".escn") /\ exists r, s = suf +:+ r.
Proof.
  unfold scene_suffix_at.
  destruct (String.prefix ".tscn" s) eqn:Ht; [|destruct (String.prefix ".escn" s) eqn:He].
  - apply prefix_spec in Ht as [r ->]. split.
    + intros [= <-]. eauto.
    + intros [[-> | ->] [r' Hr']]; [reflexivity | discriminate].
  - apply prefix_spec in He as [r ->]. split.
    + intros [= <-]. eauto.
    + intros [[-> | ->] [r' Hr']]; [discriminate | reflexivity].
  - split; [discriminate|]. intros [[-> | ->] Hr]; apply prefix_spec in Hr; congruence.
Qed.

Lemma string_app_length (a b : string) :
  String.length (a +:+ b) = String.length a + String.length b.
Proof. induction a; simpl; congruence. Qed.


Lemma string_app_nil_r (a : string) : a +:+ "" = a.
Proof. induction a; simpl; congruence. Qed.

(** What [re_match_scene] returns is a prefix of the name that ends in
    one of the two suffixes, with no newline before the suffix. *)
Lemma re_match_scene_sound (s g : string) :
  re_match_scene s = Some g ->
  exists u suf rest,
    g = u +:+ suf /\ s = g +:+ rest /\
    (suf = ".tscn" \/ suf = ".escn") /\ newline_free u = true.
Proof.
  revert g; induction s as [|c s IH]; intros g; simpl; [discriminate|].
  destruct (Ascii.eqb c newline) eqn:Hc; [discriminate|].
  destruct (re_match_scene s) as [g'|] eqn:Hrec.
  - intros [= <-]. destruct (IH _ eq_refl) as (u & suf & rest & -> & -> & Hsuf & Hu).
    exists (String c u), suf, rest. simpl. rewrite Hc, Hu. auto.
  - intros Hat. apply scene_suffix_at_spec in Hat as [Hsuf [r Hs]].
    exists "", g, r. auto.
Qed.

(** Every such prefix is found, and the one returned is the longest. *)
Lemma re_match_scene_complete (u suf rest : string) :
  newline_free u = true -> suf = ".tscn" \/ suf = ".escn" ->
  exists g, re_match_scene (u +:+ suf +:+ rest) = Some g /\
            String.length (u +:+ suf) <= String.length g.
Proof.
  intros Hu Hsuf. induction u as [|c u IH].
  - assert (Hat : scene_suffix_at (suf +:+ rest) = Some suf)
      by (apply scene_suffix_at_spec; eauto).
    assert (Hlen : String.length suf = 5) by (destruct Hsuf as [-> | ->]; reflexivity).
    assert (exists s', suf +:+ rest = String "." s') as [s' Hs']
      by (destruct Hsuf as [-> | ->]; simpl; eauto).
    change ("" +:+ suf +:+ rest) with (suf +:+ rest). change ("" +:+ suf) with suf.
    rewrite Hlen. revert Hat. rewrite Hs'. intros Hat.
    cbn [re_match_scene]. replace (Ascii.eqb "." newline) with false by reflexivity.
    destruct (re_match_scene s') as [g'|] eqn:Hrec.
    + apply re_match_scene_sound in Hrec as (u' & suf' & _ & -> & _ & Hsuf' & _).
      eexists; split; [reflexivity|]. simpl. rewrite string_app_length.
      destruct Hsuf' as [-> | ->]; simpl; lia.
    + rewrite Hat. eexists; split; [reflexivity|]. lia.
  - simpl in Hu. apply andb_true_iff in Hu as [Hc Hu].
    destruct (IH Hu) as (g & Hg & Hlen). simpl.
    apply negb_true_iff in Hc. rewrite Hc, Hg.
    eexists; split; [reflexivity|]. simpl. lia.
Qed.

(** A newline-free name that ends in one of the suffixes matches as a
    whole. *)
Lemma re_match_scene_whole (u suf : string) :
  newline_free u = true -> suf = ".tscn" \/ suf = ".escn" ->
  re_match_scene (u +:+ suf) = Some (u +:+ suf).
Proof.
  intros Hu Hsuf.
  destruct (re_match_scene_complete u suf "" Hu Hsuf) as (g & Hg & Hlen).
  rewrite string_app_nil_r in Hg. rewrite Hg. f_equal.
  apply re_match_scene_sound in Hg as (u' & suf' & rest & -> & Hs & _ & _).
  assert (String.length rest = 0).
  { apply (f_equal String.length) in Hs. rewrite !string_app_length in *. lia. }
  destruct rest; [|discriminate]. now rewrite string_app_nil_r in Hs.
Qed.
(** ** Binary64 addition of a positive constant *)

Local Open Scope Z_scope.

Lemma shr_m_of_loc (m : Z) (l : location) : shr_m (shr_record_of_loc m l) = m.
Proof. destruct l as [|[]]; reflexivity. Qed.

Lemma shr_1_div2 (mrs : shr_record) :
  0 <= shr_m mrs -> shr_m (shr_1 mrs) = Z.div2 (shr_m mrs).
Proof. destruct mrs as [[|[p|p|]|p] r s]; simpl; intros Hm; try reflexivity; lia. Qed.

Lemma iter_shr_1 (p : positive) (mrs : shr_record) :
  0 <= shr_m mrs -> shr_m (SpecFloat.iter_pos shr_1 p mrs) = Z.shiftr (shr_m mrs) (Z.pos p).
Proof.
  revert mrs; induction p as [p IH|p IH|]; intros mrs Hm; cbn [SpecFloat.iter_pos].
  - assert (H1 : 0 <= shr_m (shr_1 mrs))
      by (rewrite shr_1_div2 by easy; now apply Z.div2_nonneg).
    assert (H2 : 0 <= shr_m (SpecFloat.iter_pos shr_1 p (shr_1 mrs)))
      by (rewrite IH by easy; now apply Z.shiftr_nonneg).
    rewrite IH, IH, shr_1_div2, Z.div2_spec, !Z.shiftr_shiftr by (easy || lia).
    f_equal. lia.
  - assert (H2 : 0 <= shr_m (SpecFloat.iter_pos shr_1 p mrs))
      by (rewrite IH by easy; now apply Z.shiftr_nonneg).
    rewrite IH, IH, !Z.shiftr_shiftr by (easy || lia). f_equal. lia.
  - rewrite shr_1_div2, Z.div2_spec by easy. reflexivity.
Qed.

Lemma digits2_pos_lower (p : positive) : 2 ^ (Z.pos (digits2_pos p) - 1) <= Z.pos p.
Proof.
  induction p as [p IH|p IH|]; simpl digits2_pos; [| |simpl; lia].
  - rewrite Pos2Z.inj_succ. replace (Z.succ (Z.pos (digits2_pos p)) - 1)
      with (Z.succ (Z.pos (digits2_pos p) - 1)) by lia.
    rewrite Z.pow_succ_r by lia. lia.
  - rewrite Pos2Z.inj_succ. replace (Z.succ (Z.pos (digits2_pos p)) - 1)
      with (Z.succ (Z.pos (digits2_pos p) - 1)) by lia.
    rewrite Z.pow_succ_r by lia. lia.
Qed.

(** Shifting a positive mantissa to its canonical exponent keeps it
    positive when the exponent is not below [emin]. *)
Lemma shr_fexp_pos (m e : Z) (l : location) :
  0 < m -> emin <= e ->
  0 < shr_m (fst (shr_fexp prec emax m e l)) /\ emin <= snd (shr_fexp prec emax m e l).
Proof.
  intros Hm He. unfold shr_fexp, shr.
  destruct m as [|p|p]; try lia. simpl Zdigits2.
  destruct (fexp prec emax (Z.pos (digits2_pos p) + e) - e) as [|n|n] eqn:Hn;
    simpl fst; simpl snd; rewrite ?shr_m_of_loc; try (split; lia).
  rewrite iter_shr_1 by (rewrite shr_m_of_loc; lia). rewrite shr_m_of_loc.
  unfold fexp in Hn. fold emin in Hn.
  assert (Hd : Z.pos n = Z.pos (digits2_pos p) - prec) by lia.
  split; [|lia].
  rewrite Z.shiftr_div_pow2 by lia.
  pose proof (digits2_pos_lower p) as Hlow.
  assert (Hpow : 2 ^ Z.pos n <= 2 ^ (Z.pos (digits2_pos p) - 1))
    by (apply Z.pow_le_mono_r; unfold prec in Hd; lia).
  apply Z.div_str_pos. split; [apply Z.pow_pos_nonneg|]; lia.
Qed.

Lemma round_nearest_even_pos (m : Z) (l : location) :
  0 < m -> 0 < round_nearest_even m l.
Proof.
  intros Hm. destruct l as [|[]]; simpl; try lia. destruct (Z.even m); lia.
Qed.

(** Rounding a positive mantissa never gives a zero. *)
Lemma binary_round_aux_nonzero (sx : bool) (m e : Z) (l : location) :
  0 < m -> emin <= e ->
  SFeqb (binary_round_aux prec emax sx m e l) (S754_zero false) = false.
Proof.
  intros Hm He. unfold binary_round_aux.
  destruct (shr_fexp_pos m e l Hm He) as [Hm1 He1].
  destruct (shr_fexp prec emax m e l) as [mrs1 e1]. simpl in Hm1, He1.
  pose proof (round_nearest_even_pos _ (loc_of_shr_record mrs1) Hm1) as Hm2.
  destruct (shr_fexp_pos _ e1 loc_Exact Hm2 He1) as [Hm3 _].
  destruct (shr_fexp prec emax _ e1 loc_Exact) as [mrs2 e2]. simpl in Hm3.
  destruct (shr_m mrs2) as [|q|q]; try lia.
  destruct (e2 <=? emax - prec); destruct sx; reflexivity.
Qed.

Lemma binary_round_nonzero (sx : bool) (p : positive) (e : Z) :
  emin <= e ->
  SFeqb (binary_round prec emax sx p e) (S754_zero false) = false.
Proof.
  intros He. unfold binary_round, shl_align.
  set (e' := fexp prec emax (Z.pos (digits2_pos p) + e)).
  assert (He' : emin <= e') by (unfold e', fexp; fold emin; lia).
  destruct (e' - e); apply binary_round_aux_nonzero; lia.
Qed.

Lemma valid_binary_emin (s : bool) (m : positive) (e : Z) :
  valid_binary (S754_finite s m e) = true -> emin <= e.
Proof.
  simpl. unfold bounded, canonical_mantissa. intros H.
  apply andb_true_iff in H as [H _]. apply Z.eqb_eq in H.
  unfold fexp in H. fold emin in H. lia.
Qed.

(** Adding the double [0.01] to a double that is not negative never
    gives zero: the divisor of [spot_blend_conv] is not zero there. *)
Lemma add_epsilon_nonzero (b : float) :
  (0 <=? b)%float = true -> (b + 0.01 =? 0)%float = false.
Proof.
  intros Hb. rewrite FloatAxioms.leb_spec in Hb. rewrite FloatAxioms.eqb_spec, FloatAxioms.add_spec.
  pose proof (Prim2SF_valid b) as Hv. revert Hb.
  change (Prim2SF 0) with (S754_zero false).
  replace (Prim2SF 0.01) with (S754_finite false 5764607523034235 (-59))
    by (vm_compute; reflexivity).
  destruct (Prim2SF b) as [s|s| |s m e]; try (destruct s; discriminate || reflexivity).
  - discriminate.
  - destruct s; [discriminate|]. intros _.
    apply valid_binary_emin in Hv.
    unfold SF64add, SFadd, cond_Zopp. simpl Z.add.
    unfold binary_normalize. apply binary_round_nonzero.
    unfold emin, FloatOps.emax, FloatOps.prec in *. lia.
Qed.
(** ** Binary64 rounding is monotone *)

Lemma digits2_pos_upper (p : positive) : Z.pos p < 2 ^ Z.pos (digits2_pos p).
Proof.
  induction p as [p IH|p IH|]; simpl digits2_pos; [| |simpl; lia];
    rewrite Pos2Z.inj_succ, Z.pow_succ_r by lia; lia.
Qed.

Lemma bounded_canonical (m : positive) (e : Z) :
  bounded prec emax m e = true ->
  emin <= e /\ Z.pos m < 2 ^ prec /\ (emin < e -> 2 ^ (prec - 1) <= Z.pos m).
Proof.
  unfold bounded, canonical_mantissa, fexp. fold emin. intros H.
  apply andb_true_iff in H as [H _]. apply Z.eqb_eq in H.
  pose proof (digits2_pos_upper m) as Hup. pose proof (digits2_pos_lower m) as Hlow.
  assert (Hd : Z.pos (digits2_pos m) <= prec) by lia.
  split; [lia|]. split.
  - eapply Z.lt_le_trans; [exact Hup|]. apply Z.pow_le_mono_r; lia.
  - intros He. assert (Z.pos (digits2_pos m) = prec) as <- by lia. exact Hlow.
Qed.

Lemma incell_proper (m : Z) (l : location) (t t' : Q) :
  (t == t')%Q -> incell m l t -> incell m l t'.
Proof. intros Ht. destruct l as [|[]]; simpl; rewrite Ht; auto. Qed.

Lemma incell_bounds (m : Z) (l : location) (t : Q) :
  incell m l t -> (inject_Z m <= t)%Q /\ (t < inject_Z m + 1)%Q.
Proof. destruct l as [|[]]; simpl; intros H; split; lra. Qed.

Lemma inject_Z_xO (p : positive) : (inject_Z (Z.pos p~0) == 2 * inject_Z (Z.pos p))%Q.
Proof. unfold Qeq; simpl; lia. Qed.

Lemma inject_Z_xI (p : positive) : (inject_Z (Z.pos p~1) == 2 * inject_Z (Z.pos p) + 1)%Q.
Proof. unfold Qeq; simpl; lia. Qed.

Lemma shr_1_cell (mrs : shr_record) (t : Q) :
  (0 <= shr_m mrs)%Z ->
  incell (shr_m mrs) (loc_of_shr_record mrs) t ->
  incell (shr_m (shr_1 mrs)) (loc_of_shr_record (shr_1 mrs)) (t * (1 # 2)).
Proof.
  destruct mrs as [[|[p|p|]|p] r s]; intros Hm; try (simpl in Hm; lia);
    try pose proof (inject_Z_xO p); try pose proof (inject_Z_xI p);
    destruct r, s; simpl;
    change (inject_Z 0) with 0%Q; change (inject_Z 1) with 1%Q;
    intros Hcell; repeat split; lra.
Qed.

Lemma shr_1_nonneg (mrs : shr_record) : (0 <= shr_m mrs)%Z -> (0 <= shr_m (shr_1 mrs))%Z.
Proof. intros Hm. rewrite shr_1_div2 by easy. now apply Z.div2_nonneg. Qed.

Lemma iter_shr_1_nonneg (p : positive) (mrs : shr_record) :
  (0 <= shr_m mrs)%Z -> (0 <= shr_m (SpecFloat.iter_pos shr_1 p mrs))%Z.
Proof. intros Hm. rewrite iter_shr_1 by easy. now apply Z.shiftr_nonneg. Qed.

(** [p] right shifts divide the position by [2^p]. *)
Lemma iter_shr_1_cell (p : positive) (mrs : shr_record) (t : Q) :
  (0 <= shr_m mrs)%Z ->
  incell (shr_m mrs) (loc_of_shr_record mrs) t ->
  incell (shr_m (SpecFloat.iter_pos shr_1 p mrs))
         (loc_of_shr_record (SpecFloat.iter_pos shr_1 p mrs))
         (t / inject_Z (2 ^ Z.pos p)).
Proof.
  revert mrs t; induction p as [p IH|p IH|]; intros mrs t Hm Hcell;
    cbn [SpecFloat.iter_pos].
  - apply shr_1_cell in Hcell; [|easy]. apply shr_1_nonneg in Hm.
    apply IH in Hcell; [|easy]. apply (iter_shr_1_nonneg p) in Hm.
    apply IH in Hcell; [|easy]. revert Hcell. apply incell_proper.
    assert (Hpow : (2 ^ Z.pos p~1 = 2 * (2 ^ Z.pos p * 2 ^ Z.pos p))%Z).
    { rewrite <- Z.pow_add_r, <- Z.pow_succ_r by lia. f_equal. lia. }
    assert (Hpos : (0 < 2 ^ Z.pos p)%Z) by (apply Z.pow_pos_nonneg; lia).
    rewrite Hpow, !inject_Z_mult. rewrite Zlt_Qlt in Hpos.
    change (inject_Z 0) with 0%Q in Hpos. change (inject_Z 2) with 2%Q.
    field. lra.
  - apply IH in Hcell; [|easy]. apply (iter_shr_1_nonneg p) in Hm.
    apply IH in Hcell; [|easy]. revert Hcell. apply incell_proper.
    assert (Hpow : (2 ^ Z.pos p~0 = 2 ^ Z.pos p * 2 ^ Z.pos p)%Z).
    { rewrite <- Z.pow_add_r by lia. f_equal. lia. }
    assert (Hpos : (0 < 2 ^ Z.pos p)%Z) by (apply Z.pow_pos_nonneg; lia).
    rewrite Hpow, !inject_Z_mult. rewrite Zlt_Qlt in Hpos.
    change (inject_Z 0) with 0%Q in Hpos.
    field. lra.
  - apply shr_1_cell in Hcell; [|easy]. revert Hcell. apply incell_proper.
    change (inject_Z (2 ^ 1)) with 2%Q. field.
Qed.

Lemma P2_pos (k : Z) : 0 <= k -> (0 < P2 k)%Q.
Proof.
  intros Hk. unfold P2. change 0%Q with (inject_Z 0). rewrite <- Zlt_Qlt.
  now apply Z.pow_pos_nonneg.
Qed.

Lemma P2_add (a b : Z) : 0 <= a -> 0 <= b -> (P2 (a + b) == P2 a * P2 b)%Q.
Proof. intros Ha Hb. unfold P2. now rewrite Z.pow_add_r, inject_Z_mult. Qed.

Lemma digits_le_of_lt (p : positive) (k : Z) :
  0 <= k -> Z.pos p < 2 ^ k -> Z.pos (digits2_pos p) <= k.
Proof.
  intros Hk Hp. pose proof (digits2_pos_lower p) as Hlow.
  destruct (Z_le_gt_dec (Z.pos (digits2_pos p)) k) as [|Hgt]; [easy|].
  assert (2 ^ k <= 2 ^ (Z.pos (digits2_pos p) - 1)) by (apply Z.pow_le_mono_r; lia).
  lia.
Qed.

Lemma shr_fexp_canonical (m e : Z) (l : location) (V : Q) :
  round_input m e -> represents m e l V ->
  let '(mrs, e') := shr_fexp prec emax m e l in
  represents (shr_m mrs) e' (loc_of_shr_record mrs) V /\ canonical_cell (shr_m mrs) e'.
Proof.
  intros (Hm & He & Hin) Hrep. unfold shr_fexp, shr.
  destruct m as [|p|p]; try lia. simpl Zdigits2 in *.
  pose proof (digits2_pos_upper p) as Hup. pose proof (digits2_pos_lower p) as Hlow.
  set (d := Z.pos (digits2_pos p)) in *.
  assert (Hloc : loc_of_shr_record (shr_record_of_loc (Z.pos p) l) = l)
    by (destruct l as [|[]]; reflexivity).
  unfold fexp in *. fold emin in *.
  destruct (Z.max (d + e - prec) emin - e) as [|n|n] eqn:Hn; lazy beta iota.
  - rewrite shr_m_of_loc, Hloc. split; [exact Hrep|].
    repeat split; try lia.
    + eapply Z.lt_le_trans; [exact Hup|]. apply Z.pow_le_mono_r; lia.
    + intros He'. assert (d = prec) as <- by lia. exact Hlow.
  - assert (Hd : Z.pos n = d - prec) by lia.
    assert (Hpn : 0 < 2 ^ Z.pos n) by (apply Z.pow_pos_nonneg; lia).
    assert (Hm0 : 0 <= shr_m (shr_record_of_loc (Z.pos p) l))
      by (rewrite shr_m_of_loc; lia).
    split.
    + unfold represents in *.
      pose proof (iter_shr_1_cell n (shr_record_of_loc (Z.pos p) l)
                    (V / P2 (e - emin)) Hm0) as Hcell.
      rewrite shr_m_of_loc, Hloc in Hcell. specialize (Hcell Hrep).
      revert Hcell. apply incell_proper.
      replace (e + Z.pos n - emin) with ((e - emin) + Z.pos n) by lia.
      rewrite P2_add by lia. fold (P2 (Z.pos n)).
      pose proof (P2_pos (e - emin) ltac:(lia)). pose proof (P2_pos (Z.pos n) ltac:(lia)).
      field. lra.
    + rewrite iter_shr_1, shr_m_of_loc, Z.shiftr_div_pow2 by lia.
      assert (Hdp : 2 ^ d = 2 ^ prec * 2 ^ Z.pos n)
        by (rewrite <- Z.pow_add_r by (unfold prec; lia); f_equal; lia).
      assert (Hdp1 : 2 ^ (d - 1) = 2 ^ (prec - 1) * 2 ^ Z.pos n)
        by (rewrite <- Z.pow_add_r by (unfold prec; lia); f_equal; lia).
      assert (Hlo : 2 ^ (prec - 1) <= Z.pos p / 2 ^ Z.pos n)
        by (apply Z.div_le_lower_bound; lia).
      assert (Hhi : Z.pos p / 2 ^ Z.pos n < 2 ^ prec)
        by (apply Z.div_lt_upper_bound; lia).
      assert (0 < 2 ^ (prec - 1)) by (apply Z.pow_pos_nonneg; unfold prec; lia).
      repeat split; lia.
  - exfalso. lia.
Qed.

Lemma canonical_cell_of_bounded (m : positive) (e : Z) :
  bounded prec emax m e = true -> canonical_cell (Z.pos m) e.
Proof. intros H. apply bounded_canonical in H. unfold canonical_cell. intuition lia. Qed.

Lemma canonical_lt_exp (m1 e1 m2 e2 : Z) :
  canonical_cell m1 e1 -> canonical_cell m2 e2 -> e1 < e2 ->
  (m1 + 1) * 2 ^ (e1 - emin) <= m2 * 2 ^ (e2 - emin).
Proof.
  intros (Hm1 & He1 & Hup1 & _) (Hm2 & He2 & _ & Hlow2) He. specialize (Hlow2 ltac:(lia)).
  assert (Hp1 : 0 < 2 ^ (e1 - emin)) by (apply Z.pow_pos_nonneg; lia).
  assert (Hsplit : 2 ^ (e2 - emin) = 2 ^ (e2 - e1 - 1) * (2 * 2 ^ (e1 - emin))).
  { rewrite <- Z.pow_succ_r, <- Z.pow_add_r by lia. f_equal. lia. }
  assert (Hq : 1 <= 2 ^ (e2 - e1 - 1)) by (apply (Z.pow_le_mono_r 2 0); lia).
  assert (Hprec : 2 ^ prec = 2 * 2 ^ (prec - 1))
    by (rewrite <- Z.pow_succ_r by (unfold prec; lia); f_equal; lia).
  rewrite Hsplit. nia.
Qed.

Lemma SFleb_canonical (m1 m2 : positive) (e1 e2 : Z) :
  canonical_cell (Z.pos m1) e1 -> canonical_cell (Z.pos m2) e2 ->
  fval m1 e1 <= fval m2 e2 ->
  SFleb (S754_finite false m1 e1) (S754_finite false m2 e2) = true.
Proof.
  intros H1 H2 Hv. unfold SFleb, SFcompare, fval in *.
  destruct (Z.compare_spec e1 e2) as [->|He|He].
  - rewrite Pos.compare_cont_spec. simpl.
    assert (Hp : 0 < 2 ^ (e2 - emin))
      by (apply Z.pow_pos_nonneg; [lia|destruct H2; lia]).
    destruct (Pos.compare_spec m1 m2) as [->|Hm|Hm]; try easy. nia.
  - reflexivity.
  - pose proof (canonical_lt_exp _ _ _ _ H2 H1 He) as Hlt.
    assert (Hp : 0 < 2 ^ (e2 - emin))
      by (apply Z.pow_pos_nonneg; [lia|destruct H2; lia]).
    nia.
Qed.

Lemma fval_of_SFleb (m1 m2 : positive) (e1 e2 : Z) :
  canonical_cell (Z.pos m1) e1 -> canonical_cell (Z.pos m2) e2 ->
  SFleb (S754_finite false m1 e1) (S754_finite false m2 e2) = true ->
  fval m1 e1 <= fval m2 e2.
Proof.
  intros H1 H2. unfold SFleb, SFcompare, fval in *.
  destruct (Z.compare_spec e1 e2) as [->|He|He].
  - rewrite Pos.compare_cont_spec. simpl.
    assert (Hp : 0 < 2 ^ (e2 - emin))
      by (apply Z.pow_pos_nonneg; [lia|destruct H2; lia]).
    destruct (Pos.compare_spec m1 m2) as [->|Hm|Hm]; try easy; nia.
  - intros _. pose proof (canonical_lt_exp _ _ _ _ H1 H2 He) as Hlt.
    assert (Hp : 0 < 2 ^ (e1 - emin))
      by (apply Z.pow_pos_nonneg; [lia|destruct H1; lia]).
    nia.
  - discriminate.
Qed.

Lemma round_nearest_even_bounds (m : Z) (l : location) :
  m <= round_nearest_even m l <= m + 1.
Proof. destruct l as [|[]]; simpl; try lia. destruct (Z.even m); lia. Qed.

(** In one cell grid, rounding to nearest even is monotone. *)
Lemma round_nearest_even_mono (m1 m2 : Z) (l1 l2 : location) (t1 t2 : Q) :
  incell m1 l1 t1 -> incell m2 l2 t2 -> (t1 <= t2)%Q ->
  round_nearest_even m1 l1 <= round_nearest_even m2 l2.
Proof.
  intros H1 H2 Ht.
  pose proof (round_nearest_even_bounds m1 l1). pose proof (round_nearest_even_bounds m2 l2).
  destruct (Z.lt_trichotomy m1 m2) as [Hlt|[->|Hgt]]; [lia| |].
  - destruct l1 as [|[]], l2 as [|[]]; simpl in *; try lia;
      try (destruct (Z.even m2); lia); exfalso; lra.
  - exfalso. apply incell_bounds in H1, H2.
    assert (Hz : m2 + 1 <= m1) by lia. rewrite Zle_Qle, inject_Z_plus in Hz.
    change (inject_Z 1) with 1%Q in Hz. lra.
Qed.

Lemma represents_bounds (m e : Z) (l : location) (V : Q) :
  emin <= e -> represents m e l V ->
  (inject_Z (m * 2 ^ (e - emin)) <= V)%Q /\ (V < inject_Z ((m + 1) * 2 ^ (e - emin)))%Q.
Proof.
  intros He Hrep. apply incell_bounds in Hrep.
  pose proof (P2_pos (e - emin) ltac:(lia)) as Hp. fold (P2 (e - emin)) in *.
  rewrite !inject_Z_mult, inject_Z_plus. fold (P2 (e - emin)).
  change (inject_Z 1) with 1%Q.
  destruct Hrep as [Hlo Hhi].
  apply (Qmult_le_compat_r _ _ (P2 (e - emin))) in Hlo; [|lra].
  apply (Qmult_lt_compat_r _ _ (P2 (e - emin))) in Hhi; [|lra].
  assert (Heq : (V / P2 (e - emin) * P2 (e - emin) == V)%Q) by (field; lra).
  rewrite Heq in Hlo, Hhi. split; assumption.
Qed.

(** Rounding is monotone in the value, across exponents. *)
Lemma round_value_mono (m1 e1 m2 e2 : Z) (l1 l2 : location) (V1 V2 : Q) :
  represents m1 e1 l1 V1 -> canonical_cell m1 e1 ->
  represents m2 e2 l2 V2 -> canonical_cell m2 e2 ->
  (V1 <= V2)%Q ->
  round_nearest_even m1 l1 * 2 ^ (e1 - emin) <= round_nearest_even m2 l2 * 2 ^ (e2 - emin).
Proof.
  intros Hr1 Hc1 Hr2 Hc2 HV.
  pose proof (round_nearest_even_bounds m1 l1) as Hb1.
  pose proof (round_nearest_even_bounds m2 l2) as Hb2.
  assert (He1 : emin <= e1) by (destruct Hc1; lia).
  assert (He2 : emin <= e2) by (destruct Hc2; lia).
  assert (Hp1 : 0 < 2 ^ (e1 - emin)) by (apply Z.pow_pos_nonneg; lia).
  assert (Hp2 : 0 < 2 ^ (e2 - emin)) by (apply Z.pow_pos_nonneg; lia).
  destruct (Z.lt_trichotomy e1 e2) as [Hlt|[->|Hgt]].
  - pose proof (canonical_lt_exp _ _ _ _ Hc1 Hc2 Hlt). nia.
  - assert (Hm : round_nearest_even m1 l1 <= round_nearest_even m2 l2).
    { apply (round_nearest_even_mono _ _ _ _ _ _ Hr1 Hr2).
      pose proof (P2_pos (e2 - emin) ltac:(lia)) as Hp.
      unfold Qdiv. apply Qmult_le_compat_r; [exact HV|].
      apply Qlt_le_weak, Qinv_lt_0_compat, Hp. }
    nia.
  - exfalso. pose proof (canonical_lt_exp _ _ _ _ Hc2 Hc1 Hgt) as Hz.
    apply represents_bounds in Hr1, Hr2; try assumption.
    rewrite Zle_Qle in Hz. lra.
Qed.

(** The second normalisation of [binary_round_aux]: it only renormalises
    a mantissa that rounding carried up to [2^prec]. *)
Lemma shr_fexp_rounded (M e : Z) :
  0 < M -> emin <= e -> M <= 2 ^ prec -> (emin < e -> 2 ^ (prec - 1) <= M) ->
  exists (M' : positive) (e' : Z) (mrs : shr_record),
    shr_fexp prec emax M e loc_Exact = (mrs, e') /\ shr_m mrs = Z.pos M' /\
    Z.pos M' * 2 ^ (e' - emin) = M * 2 ^ (e - emin) /\ canonical_cell (Z.pos M') e'.
Proof.
  intros HM He Hup Hlow. destruct (Z.eq_dec M (2 ^ prec)) as [->|Hne].
  - exists (Z.to_pos (2 ^ (prec - 1))), (e + 1).
    unfold shr_fexp, shr, fexp. fold emin.
    replace (Z.max (Zdigits2 (2 ^ prec) + e - prec) emin - e) with 1
      by (change (Zdigits2 (2 ^ prec)) with 54;
          unfold SpecFloat.emin, emax, prec in *; lia).
    eexists. split; [reflexivity|]. split; [reflexivity|]. split.
    + replace (e + 1 - emin) with (Z.succ (e - emin)) by lia.
      rewrite Z.pow_succ_r by lia. change (Z.pos (Z.to_pos (2 ^ (prec - 1)))) with (2 ^ 52).
      change (2 ^ prec) with (2 * 2 ^ 52). lia.
    + unfold canonical_cell. change (Z.pos (Z.to_pos (2 ^ (prec - 1)))) with (2 ^ (prec - 1)).
      repeat split; try lia; unfold prec; simpl; lia.
  - destruct M as [|p|p]; try lia.
    assert (Hd : Z.pos (digits2_pos p) <= prec)
      by (apply digits_le_of_lt; [unfold prec|]; lia).
    exists p, e. unfold shr_fexp, shr, fexp. fold emin. simpl Zdigits2.
    destruct (Z.max (Z.pos (digits2_pos p) + e - prec) emin - e) eqn:Hn; try lia;
      (eexists; split; [reflexivity|]; split; [reflexivity|]; split; [reflexivity|]);
      unfold canonical_cell; repeat split; lia.
Qed.

(** What [binary_round_aux] returns on a positive input: the value
    rounded to nearest even in its canonical cell, or an infinity when
    the exponent of the result is too large. *)
Lemma binary_round_aux_result (m e : Z) (l : location) (V : Q) :
  round_input m e -> represents m e l V ->
  exists (m' e' : Z) (l' : location) (M : positive) (E : Z),
    represents m' e' l' V /\ canonical_cell m' e' /\
    Z.pos M * 2 ^ (E - emin) = round_nearest_even m' l' * 2 ^ (e' - emin) /\
    canonical_cell (Z.pos M) E /\
    binary_round_aux prec emax false m e l =
      if E <=? emax - prec then S754_finite false M E else S754_infinity false.
Proof.
  intros Hin Hrep. unfold binary_round_aux.
  pose proof (shr_fexp_canonical m e l V Hin Hrep) as Hcan.
  destruct (shr_fexp prec emax m e l) as [mrs1 e1]. destruct Hcan as [Hrep1 Hc1].
  pose proof (round_nearest_even_bounds (shr_m mrs1) (loc_of_shr_record mrs1)) as Hb.
  destruct Hc1 as (Hm1 & He1 & Hup1 & Hlow1).
  destruct (shr_fexp_rounded (round_nearest_even (shr_m mrs1) (loc_of_shr_record mrs1)) e1)
    as (M & E & mrs2 & -> & Hm2 & Hval & Hc2); try lia.
  exists (shr_m mrs1), e1, (loc_of_shr_record mrs1), M, E.
  rewrite Hm2. split; [assumption|]. split; [unfold canonical_cell; auto|].
  split; [assumption|]. split; [assumption|reflexivity].
Qed.

(** [binary_round_aux] is monotone in the value it rounds. *)
Lemma binary_round_aux_mono (m1 e1 m2 e2 : Z) (l1 l2 : location) (V1 V2 : Q) :
  round_input m1 e1 -> represents m1 e1 l1 V1 ->
  round_input m2 e2 -> represents m2 e2 l2 V2 ->
  (V1 <= V2)%Q ->
  SFleb (binary_round_aux prec emax false m1 e1 l1)
        (binary_round_aux prec emax false m2 e2 l2) = true.
Proof.
  intros Hin1 Hrep1 Hin2 Hrep2 HV.
  destruct (binary_round_aux_result _ _ _ _ Hin1 Hrep1)
    as (m1' & e1' & l1' & M1 & E1 & Hr1 & Hc1 & Hv1 & HC1 & ->).
  destruct (binary_round_aux_result _ _ _ _ Hin2 Hrep2)
    as (m2' & e2' & l2' & M2 & E2 & Hr2 & Hc2 & Hv2 & HC2 & ->).
  pose proof (round_value_mono _ _ _ _ _ _ _ _ Hr1 Hc1 Hr2 Hc2 HV) as Hle.
  rewrite <- Hv1, <- Hv2 in Hle.
  destruct (Z.leb_spec E2 (emax - prec)) as [HE2|HE2].
  - assert (HE : E1 <= E2).
    { destruct (Z_le_gt_dec E1 E2) as [|Hgt]; [easy|].
      pose proof (canonical_lt_exp _ _ _ _ HC2 HC1 ltac:(lia)) as Hlt.
      assert (0 < 2 ^ (E2 - emin)) by (apply Z.pow_pos_nonneg; destruct HC2; lia).
      nia. }
    rewrite (proj2 (Z.leb_le E1 (emax - prec))) by lia.
    now apply SFleb_canonical.
  - destruct (E1 <=? emax - prec); reflexivity.
Qed.

Lemma pos_iter_xO (m d : positive) : Z.pos (Pos.iter xO m d) = Z.pos m * 2 ^ Z.pos d.
Proof.
  induction d as [|d IH] using Pos.peano_ind.
  - simpl. lia.
  - rewrite Pos.iter_succ, Pos2Z.inj_succ, Z.pow_succ_r by lia.
    rewrite Pos2Z.inj_xO, IH. lia.
Qed.

Lemma digits2_pos_iter_xO (m d : positive) :
  Z.pos (digits2_pos (Pos.iter xO m d)) = Z.pos (digits2_pos m) + Z.pos d.
Proof.
  induction d as [|d IH] using Pos.peano_ind.
  - simpl. lia.
  - rewrite Pos.iter_succ. simpl digits2_pos. rewrite !Pos2Z.inj_succ, IH. lia.
Qed.

Lemma shl_align_value (m : positive) (e e' : Z) :
  e' <= e -> Z.pos (fst (shl_align m e e')) = Z.pos m * 2 ^ (e - e').
Proof.
  intros He. unfold shl_align. destruct (e' - e) as [|d|d] eqn:Hd; simpl fst.
  - replace (e - e') with 0 by lia. lia.
  - lia.
  - rewrite pos_iter_xO. f_equal. f_equal. lia.
Qed.

(** The input [binary_round] hands to [binary_round_aux]. *)
Lemma binary_round_input (p : positive) (e : Z) :
  emin <= e ->
  exists (mz : positive) (ez : Z),
    shl_align p e (fexp prec emax (Z.pos (digits2_pos p) + e)) = (mz, ez) /\
    round_input (Z.pos mz) ez /\
    Z.pos mz * 2 ^ (ez - emin) = Z.pos p * 2 ^ (e - emin).
Proof.
  intros He. unfold shl_align, round_input.
  set (e' := fexp prec emax (Z.pos (digits2_pos p) + e)).
  assert (He' : emin <= e') by (unfold e', fexp; fold emin; lia).
  destruct (e' - e) as [|d|d] eqn:Hd.
  - exists p, e. simpl Zdigits2. fold e'. repeat split; lia.
  - exists p, e. simpl Zdigits2. fold e'. repeat split; lia.
  - exists (Pos.iter xO p d), e'. simpl Zdigits2.
    rewrite digits2_pos_iter_xO, pos_iter_xO.
    replace (Z.pos (digits2_pos p) + Z.pos d + e') with (Z.pos (digits2_pos p) + e) by lia.
    fold e'. repeat split; try lia.
    replace (e - emin) with (Z.pos d + (e' - emin)) by lia.
    rewrite Z.pow_add_r by lia. lia.
Qed.

Lemma represents_exact (m e : Z) :
  emin <= e -> represents m e loc_Exact (inject_Z (m * 2 ^ (e - emin))).
Proof.
  intros He. unfold represents, incell. rewrite inject_Z_mult. fold (P2 (e - emin)).
  pose proof (P2_pos (e - emin) ltac:(lia)). field. lra.
Qed.

(** [binary_round] is monotone in the value it rounds. *)
Lemma binary_round_mono (p1 p2 : positive) (e1 e2 : Z) :
  emin <= e1 -> emin <= e2 ->
  Z.pos p1 * 2 ^ (e1 - emin) <= Z.pos p2 * 2 ^ (e2 - emin) ->
  SFleb (binary_round prec emax false p1 e1) (binary_round prec emax false p2 e2) = true.
Proof.
  intros He1 He2 Hle. unfold binary_round.
  destruct (binary_round_input p1 e1 He1) as (m1 & z1 & -> & Hin1 & Hv1).
  destruct (binary_round_input p2 e2 He2) as (m2 & z2 & -> & Hin2 & Hv2).
  apply (binary_round_aux_mono _ _ _ _ _ _
           (inject_Z (Z.pos m1 * 2 ^ (z1 - emin))) (inject_Z (Z.pos m2 * 2 ^ (z2 - emin))));
    try assumption.
  - apply represents_exact. destruct Hin1; lia.
  - apply represents_exact. destruct Hin2; lia.
  - rewrite <- Zle_Qle. lia.
Qed.

(** Adding a positive finite double to such a double: the exact sum,
    rounded. *)
Lemma SFadd_nonneg (x : spec_float) (mc : positive) (ec : Z) :
  nonneg_finite x -> bounded prec emax mc ec = true ->
  binary_round prec emax false mc ec = S754_finite false mc ec ->
  exists (p : positive) (e : Z),
    SFadd prec emax x (S754_finite false mc ec) = binary_round prec emax false p e /\
    emin <= e /\ Z.pos p * 2 ^ (e - emin) = sfval x + fval mc ec.
Proof.
  intros Hx Hc Hround. pose proof (bounded_canonical _ _ Hc) as (Hec & _).
  destruct x as [s|s| |[] m e]; simpl in Hx; try contradiction.
  - exists mc, ec. simpl. rewrite Hround. repeat split; lia.
  - pose proof (bounded_canonical _ _ Hx) as (He & _).
    unfold SFadd, cond_Zopp, binary_normalize. simpl Z.add.
    eexists _, (Z.min e ec). split; [reflexivity|]. split; [lia|].
    rewrite Pos2Z.inj_add, !shl_align_value by lia. simpl sfval. unfold fval.
    rewrite Z.mul_add_distr_r, <- !Z.mul_assoc, <- !Z.pow_add_r by lia.
    f_equal; f_equal; f_equal; lia.
Qed.

Lemma sfval_mono (x1 x2 : spec_float) :
  nonneg_finite x1 -> nonneg_finite x2 -> SFleb x1 x2 = true -> sfval x1 <= sfval x2.
Proof.
  intros H1 H2 Hle.
  destruct x1 as [s1|s1| |[] m1 e1], x2 as [s2|s2| |[] m2 e2];
    simpl in H1, H2; try contradiction; simpl sfval; try lia.
  - unfold fval. assert (0 < 2 ^ (e2 - emin)); [|lia].
    apply Z.pow_pos_nonneg; [lia|]. apply bounded_canonical in H2. lia.
  - discriminate.
  - apply fval_of_SFleb; auto using canonical_cell_of_bounded.
Qed.

(** Adding a positive finite double is monotone on the doubles that are
    zero or positive and finite. *)
Lemma SFadd_mono (x1 x2 : spec_float) (mc : positive) (ec : Z) :
  nonneg_finite x1 -> nonneg_finite x2 -> bounded prec emax mc ec = true ->
  binary_round prec emax false mc ec = S754_finite false mc ec ->
  SFleb x1 x2 = true ->
  SFleb (SFadd prec emax x1 (S754_finite false mc ec))
        (SFadd prec emax x2 (S754_finite false mc ec)) = true.
Proof.
  intros H1 H2 Hc Hround Hle.
  destruct (SFadd_nonneg x1 mc ec H1 Hc Hround) as (p1 & e1 & -> & He1 & Hv1).
  destruct (SFadd_nonneg x2 mc ec H2 Hc Hround) as (p2 & e2 & -> & He2 & Hv2).
  apply binary_round_mono; try assumption.
  pose proof (sfval_mono x1 x2 H1 H2 Hle). lia.
Qed.

(** The quotient and the location [SFdiv_core_binary] computes from a
    Euclidean division hold the exact quotient. *)
Lemma div_eucl_cell (a b : Z) :
  0 <= a -> 0 < b ->
  let '(q, r) := Z.div_eucl a b in
  incell q (new_location b r) (inject_Z a / inject_Z b).
Proof.
  intros Ha Hb. pose proof (Z_div_mod a b ltac:(lia)) as Hdm.
  destruct (Z.div_eucl a b) as [q r]. destruct Hdm as [Hab Hr].
  assert (HB : (0 < inject_Z b)%Q) by (change 0%Q with (inject_Z 0); now rewrite <- Zlt_Qlt).
  assert (Ht : (inject_Z a / inject_Z b == inject_Z q + inject_Z r / inject_Z b)%Q).
  { rewrite Hab, inject_Z_plus, inject_Z_mult. field. lra. }
  apply (incell_proper _ _ _ _ (Qeq_sym _ _ Ht)).
  assert (Hrq : forall k : Z, k < 2 * r -> (inject_Z k < 2 * inject_Z r)%Q).
  { intros k Hk. change 2%Q with (inject_Z 2). rewrite <- inject_Z_mult, <- Zlt_Qlt. exact Hk. }
  assert (Hrq' : forall k : Z, 2 * r < k -> (2 * inject_Z r < inject_Z k)%Q).
  { intros k Hk. change 2%Q with (inject_Z 2). rewrite <- inject_Z_mult, <- Zlt_Qlt. exact Hk. }
  assert (Hlt : forall x : Q,
             (inject_Z r < x * inject_Z b)%Q -> (inject_Z r / inject_Z b < x)%Q)
    by (intros x Hx; now apply Qlt_shift_div_r).
  assert (Hgt : forall x : Q,
             (x * inject_Z b < inject_Z r)%Q -> (x < inject_Z r / inject_Z b)%Q)
    by (intros x Hx; now apply Qlt_shift_div_l).
  assert (Hzero : r = 0 -> (inject_Z q + inject_Z r / inject_Z b == inject_Z q)%Q).
  { intros ->. change (inject_Z 0) with 0%Q. field. lra. }
  unfold new_location, new_location_even, new_location_odd.
  destruct (Z.even b) eqn:Heven; destruct (Z.eqb_spec r 0) as [Hr0|Hr0];
    try (simpl; auto; fail).
  - assert (Hr1 : (0 < inject_Z r)%Q)
      by (change 0%Q with (inject_Z 0); rewrite <- Zlt_Qlt; lia).
    destruct (Z.compare_spec (2 * r) b) as [Heq|Hc|Hc]; simpl.
    + assert (Hh : (inject_Z r / inject_Z b == 1 # 2)%Q).
      { rewrite <- Heq, inject_Z_mult. change (inject_Z 2) with 2%Q. field. lra. }
      set (F := (inject_Z r / inject_Z b)%Q) in *. clearbody F. lra.
    + specialize (Hrq' _ Hc).
      assert (Hh : (inject_Z r / inject_Z b < 1 # 2)%Q) by (apply Hlt; lra).
      assert (Hfrac : (0 < inject_Z r / inject_Z b)%Q) by (apply Hgt; lra).
      set (F := (inject_Z r / inject_Z b)%Q) in *. clearbody F. split; lra.
    + specialize (Hrq _ Hc).
      assert (Hh : (1 # 2 < inject_Z r / inject_Z b)%Q) by (apply Hgt; lra).
      assert (Hfrac1 : (inject_Z r / inject_Z b < 1)%Q)
        by (apply Hlt; rewrite Zlt_Qlt in Hr; lra).
      set (F := (inject_Z r / inject_Z b)%Q) in *. clearbody F. split; lra.
  - assert (Hr1 : (0 < inject_Z r)%Q)
      by (change 0%Q with (inject_Z 0); rewrite <- Zlt_Qlt; lia).
    assert (Hodd : 2 * r <> b).
    { intros <-. rewrite Z.even_mul in Heven. discriminate. }
    assert (Hcases : 2 * r < b \/ b < 2 * r) by lia.
    destruct (Z.compare_spec (2 * r + 1) b) as [Heq|Hc|Hc]; simpl;
      destruct Hcases as [Hc'|Hc']; try lia.
    + specialize (Hrq' _ Hc').
      assert (Hh : (inject_Z r / inject_Z b < 1 # 2)%Q) by (apply Hlt; lra).
      assert (Hfrac : (0 < inject_Z r / inject_Z b)%Q) by (apply Hgt; lra).
      set (F := (inject_Z r / inject_Z b)%Q) in *. clearbody F. split; lra.
    + specialize (Hrq' _ Hc').
      assert (Hh : (inject_Z r / inject_Z b < 1 # 2)%Q) by (apply Hlt; lra).
      assert (Hfrac : (0 < inject_Z r / inject_Z b)%Q) by (apply Hgt; lra).
      set (F := (inject_Z r / inject_Z b)%Q) in *. clearbody F. split; lra.
    + specialize (Hrq _ Hc').
      assert (Hh : (1 # 2 < inject_Z r / inject_Z b)%Q) by (apply Hgt; lra).
      assert (Hfrac1 : (inject_Z r / inject_Z b < 1)%Q)
        by (apply Hlt; rewrite Zlt_Qlt in Hr; lra).
      set (F := (inject_Z r / inject_Z b)%Q) in *. clearbody F. split; lra.
Qed.

Lemma digits2_pos_eq (p : positive) (k : Z) :
  2 ^ (k - 1) <= Z.pos p < 2 ^ k -> Z.pos (digits2_pos p) = k.
Proof.
  intros [Hlo Hhi]. pose proof (digits2_pos_upper p) as Hup.
  pose proof (digits2_pos_lower p) as Hlow.
  destruct (Z_lt_le_dec k 1) as [Hk|Hk].
  - assert (2 ^ k <= 2 ^ 0) by (destruct (Z_lt_le_dec k 0);
      [rewrite Z.pow_neg_r by lia; simpl; lia | apply Z.pow_le_mono_r; lia]).
    simpl in *. lia.
  - destruct (Z.lt_trichotomy (Z.pos (digits2_pos p)) k) as [Hlt|[Heq|Hgt]]; [|easy|].
    + assert (2 ^ Z.pos (digits2_pos p) <= 2 ^ (k - 1)) by (apply Z.pow_le_mono_r; lia). lia.
    + assert (2 ^ k <= 2 ^ (Z.pos (digits2_pos p) - 1)) by (apply Z.pow_le_mono_r; lia). lia.
Qed.

(** Dividing two normal doubles: the exact quotient, rounded. *)
Lemma SFdiv_normal (ma md : positive) (ea ed : Z) :
  normal_mantissa ma -> normal_mantissa md ->
  emin <= ea -> emin <= ed -> emin <= ea - ed - prec ->
  exists (q e' : Z) (l : location),
    SFdiv prec emax (S754_finite false ma ea) (S754_finite false md ed) =
      binary_round_aux prec emax false q e' l /\
    round_input q e' /\ represents q e' l (quotient_value ma ea md ed).
Proof.
  intros Hma Hmd Hea Hed Hexp.
  pose proof (digits2_pos_eq ma prec Hma) as Hda.
  pose proof (digits2_pos_eq md prec Hmd) as Hdd.
  unfold SFdiv, SFdiv_core_binary. simpl Zdigits2. rewrite Hda, Hdd.
  unfold fexp. fold emin.
  replace (Z.min (Z.max (prec + ea - (prec + ed) - prec) emin) (ea - ed))
    with (ea - ed - prec) by lia.
  replace (ea - ed - (ea - ed - prec)) with prec by lia.
  change (match prec with 0 => Z.pos ma | Z.pos _ => Z.shiftl (Z.pos ma) prec | Z.neg _ => 0 end)
    with (Z.shiftl (Z.pos ma) prec).
  rewrite Z.shiftl_mul_pow2 by (unfold prec; lia).
  assert (Hp : 0 < 2 ^ prec) by (apply Z.pow_pos_nonneg; unfold prec; lia).
  assert (Hp1 : 0 < 2 ^ (prec - 1)) by (apply Z.pow_pos_nonneg; unfold prec; lia).
  pose proof (div_eucl_cell (Z.pos ma * 2 ^ prec) (Z.pos md) ltac:(lia) ltac:(lia)) as Hcell.
  assert (Hq : 2 ^ (prec - 1) <= fst (Z.div_eucl (Z.pos ma * 2 ^ prec) (Z.pos md))).
  { change (fst (Z.div_eucl ?a ?b)) with (a / b).
    apply Z.div_le_lower_bound; [lia|]. destruct Hma, Hmd. nia. }
  destruct (Z.div_eucl (Z.pos ma * 2 ^ prec) (Z.pos md)) as [q r]. simpl fst in Hq.
  exists q, (ea - ed - prec), (new_location (Z.pos md) r).
  split; [reflexivity|]. split.
  - unfold round_input. split; [lia|]. split; [lia|].
    destruct q as [|q|q]; try lia. simpl Zdigits2.
    pose proof (digits2_pos_upper q) as Hup.
    assert (prec - 1 < Z.pos (digits2_pos q)).
    { apply (Z.pow_lt_mono_r_iff 2); [lia|lia|lia]. }
    unfold fexp. lia.
  - unfold represents. revert Hcell. apply incell_proper.
    unfold quotient_value, fval, P2.
    assert (HZ : 2 ^ (ea - emin) * 2 ^ (- emin) =
                 2 ^ prec * (2 ^ (ed - emin) * 2 ^ (ea - ed - prec - emin))).
    { rewrite <- !Z.pow_add_r by (unfold SpecFloat.emin, emax, prec in *; lia).
      f_equal. lia. }
    rewrite <- !Z.mul_assoc, HZ, !inject_Z_mult.
    assert (H1 : (0 < inject_Z (2 ^ (ed - emin)))%Q) by (apply P2_pos; lia).
    assert (H2 : (0 < inject_Z (2 ^ (ea - ed - prec - emin)))%Q) by (apply P2_pos; lia).
    assert (H3 : (0 < inject_Z (Z.pos md))%Q)
      by (change 0%Q with (inject_Z 0); rewrite <- Zlt_Qlt; lia).
    field. repeat split; lra.
Qed.

(** Dividing a normal double by a larger normal double gives a smaller
    double. *)
Lemma SFdiv_antitone (ma md1 md2 : positive) (ea ed1 ed2 : Z) :
  normal_mantissa ma -> normal_mantissa md1 -> normal_mantissa md2 ->
  emin <= ea -> emin <= ed1 -> emin <= ed2 ->
  emin <= ea - ed1 - prec -> emin <= ea - ed2 - prec ->
  fval md1 ed1 <= fval md2 ed2 ->
  SFleb (SFdiv prec emax (S754_finite false ma ea) (S754_finite false md2 ed2))
        (SFdiv prec emax (S754_finite false ma ea) (S754_finite false md1 ed1)) = true.
Proof.
  intros Hma Hmd1 Hmd2 Hea Hed1 Hed2 Hx1 Hx2 Hle.
  destruct (SFdiv_normal ma md1 ea ed1) as (q1 & e1 & l1 & -> & Hin1 & Hr1); try assumption.
  destruct (SFdiv_normal ma md2 ea ed2) as (q2 & e2 & l2 & -> & Hin2 & Hr2); try assumption.
  apply (binary_round_aux_mono _ _ _ _ _ _ _ _ Hin2 Hr2 Hin1 Hr1).
  unfold quotient_value.
  assert (Hd1 : 0 < fval md1 ed1) by (unfold fval; apply Z.mul_pos_pos;
    [lia|apply Z.pow_pos_nonneg; lia]).
  assert (HK : 0 <= fval ma ea * 2 ^ (- emin)).
  { unfold fval. apply Z.mul_nonneg_nonneg; [apply Z.mul_nonneg_nonneg; [lia|]|];
      apply Z.pow_nonneg; lia. }
  rewrite Zlt_Qlt in Hd1. rewrite Zle_Qle in Hle, HK.
  change (inject_Z 0) with 0%Q in *.
  set (K := inject_Z (fval ma ea * 2 ^ (- emin))) in *.
  set (D1 := inject_Z (fval md1 ed1)) in *. set (D2 := inject_Z (fval md2 ed2)) in *.
  clearbody K D1 D2.
  apply Qle_shift_div_l; [lra|].
  setoid_replace (K / D2 * D1)%Q with (K * D1 / D2)%Q using relation Qeq by (field; lra).
  apply Qle_shift_div_r; [lra|]. nra.
Qed.

Lemma SFleb_of_sfval (x1 x2 : spec_float) :
  nonneg_finite x1 -> nonneg_finite x2 -> sfval x1 <= sfval x2 -> SFleb x1 x2 = true.
Proof.
  intros H1 H2.
  destruct x1 as [s1|s1| |[] m1 e1], x2 as [s2|s2| |[] m2 e2];
    simpl in H1, H2; try contradiction; simpl sfval; try reflexivity.
  - unfold fval. intros Hle. exfalso.
    assert (0 < 2 ^ (e1 - emin)); [|lia].
    apply Z.pow_pos_nonneg; [lia|]. apply bounded_canonical in H1. lia.
  - apply SFleb_canonical; auto using canonical_cell_of_bounded.
Qed.

(** Doubles between zero and a positive finite double are zero or
    positive and finite. *)
Lemma nonneg_finite_range (x1 x2 : spec_float) (m3 : positive) (e3 : Z) :
  valid_binary x1 = true -> valid_binary x2 = true ->
  SFleb (S754_zero false) x1 = true -> SFleb x1 x2 = true ->
  SFleb x2 (S754_finite false m3 e3) = true ->
  nonneg_finite x1 /\ nonneg_finite x2.
Proof.
  intros Hv1 Hv2 H0 H12 H23.
  destruct x1 as [s1|[]| |[] m1 e1], x2 as [s2|[]| |[] m2 e2];
    simpl in *; try discriminate; auto.
Qed.

(** A double between two positive finite doubles is positive and finite,
    with an exponent between theirs. *)
Lemma finite_between (x : spec_float) (m1 m3 : positive) (e1 e3 : Z) :
  valid_binary x = true ->
  bounded prec emax m1 e1 = true -> bounded prec emax m3 e3 = true ->
  SFleb (S754_finite false m1 e1) x = true -> SFleb x (S754_finite false m3 e3) = true ->
  exists (m : positive) (e : Z),
    x = S754_finite false m e /\ canonical_cell (Z.pos m) e /\ e1 <= e <= e3.
Proof.
  intros Hv Hb1 Hb3 H1 H3.
  destruct x as [s|[]| |[] m e]; simpl in Hv; try discriminate.
  apply canonical_cell_of_bounded in Hv, Hb1, Hb3.
  exists m, e. split; [reflexivity|]. split; [assumption|].
  apply fval_of_SFleb in H1, H3; try assumption. unfold fval in *.
  assert (Hp : 0 < 2 ^ (e - emin)) by (apply Z.pow_pos_nonneg; destruct Hv; lia).
  assert (Hp1 : 0 < 2 ^ (e1 - emin)) by (apply Z.pow_pos_nonneg; destruct Hb1; lia).
  split.
  - destruct (Z_le_gt_dec e1 e) as [|Hgt]; [easy|].
    pose proof (canonical_lt_exp _ _ _ _ Hv Hb1 ltac:(lia)). nia.
  - destruct (Z_le_gt_dec e e3) as [|Hgt]; [easy|].
    pose proof (canonical_lt_exp _ _ _ _ Hb3 Hv ltac:(lia)).
    assert (0 < 2 ^ (e3 - emin)) by (apply Z.pow_pos_nonneg; destruct Hb3; lia). nia.
Qed.

Lemma canonical_normal (m : positive) (e : Z) :
  canonical_cell (Z.pos m) e -> emin < e -> normal_mantissa m.
Proof. intros (_ & _ & Hup & Hlow) He. unfold normal_mantissa. split; auto. Qed.

(** The spot blend expression on binary64 is monotone: a larger blend in
    [0, 1] never gives a larger result. *)
Lemma spot_blend_float_monotone (b1 b2 : float) :
  (0 <=? b1)%float = true -> (b1 <=? b2)%float = true -> (b2 <=? 1)%float = true ->
  (0.2 / (b2 + 0.01) <=? 0.2 / (b1 + 0.01))%float = true.
Proof.
  intros H0 H12 H23.
  rewrite FloatAxioms.leb_spec in *. rewrite !FloatAxioms.div_spec.
  pose proof (Prim2SF_valid b1) as Hv1. pose proof (Prim2SF_valid b2) as Hv2.
  pose proof (Prim2SF_valid (b1 + 0.01)) as Hvd1.
  pose proof (Prim2SF_valid (b2 + 0.01)) as Hvd2.
  rewrite !FloatAxioms.add_spec in *.
  set (mc := 5764607523034235%positive). set (ec := -59).
  replace (Prim2SF 0.01) with (S754_finite false mc ec) in * by (vm_compute; reflexivity).
  replace (Prim2SF 0.2) with (S754_finite false 7205759403792794 (-55))
    by (vm_compute; reflexivity).
  replace (Prim2SF 1) with (S754_finite false 4503599627370496 (-52)) in *
    by (vm_compute; reflexivity).
  replace (Prim2SF 0) with (S754_zero false) in * by (vm_compute; reflexivity).
  set (x1 := Prim2SF b1) in *. set (x2 := Prim2SF b2) in *. clearbody x1 x2.
  destruct (nonneg_finite_range x1 x2 _ _ Hv1 Hv2 H0 H12 H23) as [Hn1 Hn2].
  assert (Hc : bounded prec emax mc ec = true) by (vm_compute; reflexivity).
  assert (Hround : binary_round prec emax false mc ec = S754_finite false mc ec)
    by (vm_compute; reflexivity).
  assert (Hone : nonneg_finite (S754_finite false 4503599627370496 (-52)))
    by (vm_compute; reflexivity).
  assert (Hzero : nonneg_finite (S754_zero false)) by exact I.
  pose proof (SFadd_mono _ _ mc ec Hzero Hn1 Hc Hround H0) as Hlow1.
  pose proof (SFadd_mono _ _ mc ec Hn1 Hn2 Hc Hround H12) as Hmid.
  pose proof (SFadd_mono _ _ mc ec Hn2 Hone Hc Hround H23) as Hup2.
  assert (H02 : SFleb (S754_zero false) x2 = true).
  { apply SFleb_of_sfval; try assumption. pose proof (sfval_mono _ _ Hzero Hn1 H0).
    pose proof (sfval_mono _ _ Hn1 Hn2 H12). lia. }
  assert (H13 : SFleb x1 (S754_finite false 4503599627370496 (-52)) = true).
  { apply SFleb_of_sfval; try assumption. pose proof (sfval_mono _ _ Hn1 Hn2 H12).
    pose proof (sfval_mono _ _ Hn2 Hone H23). lia. }
  pose proof (SFadd_mono _ _ mc ec Hzero Hn2 Hc Hround H02) as Hlow2.
  pose proof (SFadd_mono _ _ mc ec Hn1 Hone Hc Hround H13) as Hup1.
  fold SF64add in *. unfold SF64add in *.
  set (d1 := SFadd prec emax x1 (S754_finite false mc ec)) in *.
  set (d2 := SFadd prec emax x2 (S754_finite false mc ec)) in *.
  clearbody d1 d2.
  replace (SFadd prec emax (S754_zero false) (S754_finite false mc ec))
    with (S754_finite false mc ec) in * by (vm_compute; reflexivity).
  replace (SFadd prec emax (S754_finite false 4503599627370496 (-52))
             (S754_finite false mc ec))
    with (S754_finite false 4548635623644201 (-52)) in * by (vm_compute; reflexivity).
  assert (Hb3 : bounded prec emax 4548635623644201 (-52) = true) by (vm_compute; reflexivity).
  destruct (finite_between d1 _ _ _ _ Hvd1 Hc Hb3 Hlow1 Hup1) as (md1 & ed1 & -> & Hcd1 & Hed1).
  destruct (finite_between d2 _ _ _ _ Hvd2 Hc Hb3 Hlow2 Hup2) as (md2 & ed2 & -> & Hcd2 & Hed2).
  unfold ec in *.
  assert (Hemin : emin = -1074) by reflexivity.
  unfold SF64div. apply SFdiv_antitone.
  - unfold normal_mantissa, prec. simpl. lia.
  - apply (canonical_normal _ ed1); [assumption|lia].
  - apply (canonical_normal _ ed2); [assumption|lia].
  - lia.
  - lia.
  - lia.
  - unfold SpecFloat.emin, emax, prec in *. lia.
  - unfold SpecFloat.emin, emax, prec in *. lia.
  - now apply fval_of_SFleb.
Qed.

(** The order of binary64 is transitive on the blends of [0, 1]. *)
Lemma spot_blend_float_nonneg (b1 b2 : float) :
  (0 <=? b1)%float = true -> (b1 <=? b2)%float = true -> (b2 <=? 1)%float = true ->
  (b1 <=? 1)%float = true /\ (0 <=? b2)%float = true.
Proof.
  intros H0 H12 H23. rewrite FloatAxioms.leb_spec in H0, H12, H23.
  rewrite !FloatAxioms.leb_spec.
  pose proof (Prim2SF_valid b1) as Hv1. pose proof (Prim2SF_valid b2) as Hv2.
  replace (Prim2SF 1) with (S754_finite false 4503599627370496 (-52)) in *
    by (vm_compute; reflexivity).
  replace (Prim2SF 0) with (S754_zero false) in * by (vm_compute; reflexivity).
  destruct (nonneg_finite_range _ _ _ _ Hv1 Hv2 H0 H12 H23) as [Hn1 Hn2].
  assert (Hone : nonneg_finite (S754_finite false 4503599627370496 (-52)))
    by (vm_compute; reflexivity).
  assert (Hzero : nonneg_finite (S754_zero false)) by exact I.
  pose proof (sfval_mono _ _ Hzero Hn1 H0). pose proof (sfval_mono _ _ Hn1 Hn2 H12).
  pose proof (sfval_mono _ _ Hn2 Hone H23).
  split; apply SFleb_of_sfval; try assumption; lia.
Qed.

Close Scope Z_scope.
(** ** Running the exporters *)

Section ExporterProperties.

Context `{Host} `{OS} `{!Animation}.

Lemma log_more_nil (w : World) : log_more w [] = w.
Proof. destruct w; unfold log_more; simpl. now rewrite app_nil_r. Qed.





Lemma _find_scene_in_subtree_run (folder scene_filename : string) (w : World) :
  let valid := valid_scene_candidates (scene_candidates folder scene_filename) in
  _find_scene_in_subtree folder scene_filename w =
  (Ok (head valid),
   log_more w (if decide (1 < List.length valid)
               then ["Multiple scenes found for " +:+ scene_filename] else [])).
Proof.
  intros valid. unfold _find_scene_in_subtree. fold valid.
  destruct valid as [|v rest] eqn:Hv.
  - simpl. now rewrite log_more_nil.
  - unfold mbind, M_bind, bind, mret, M_ret, ret. simpl head.
    destruct (decide (1 < List.length (v :: rest))); simpl.
    + reflexivity.
    + now rewrite log_more_nil.
Qed.

(** [find_scene] never raises, touches nothing but the log, and its
    result does not depend on the world it runs in. *)
Lemma find_scene_run (export_settings : ExportSettings) (scene_filename : string) :
  exists r msgs, (r = None -> msgs = []) /\
    forall w, find_scene export_settings scene_filename w = (Ok r, log_more w msgs).
Proof.
  unfold find_scene.
  destruct (if String.eqb _ "PROJECT_DIR" then _ else _) as [dir|].
  - eexists _, _. split; [|intros w; apply _find_scene_in_subtree_run].
    cbv zeta. destruct (valid_scene_candidates _); [|discriminate].
    intros _. now rewrite decide_False by (simpl; lia).
  - exists None, []. split; [easy|]. intros w. now rewrite log_more_nil.
Qed.


(** The three outcomes of [use_external_scene]: no scene found, a scene
    whose name is already registered, a scene registered now. *)
Lemma use_external_scene_run (export_settings : ExportSettings) (scene_name : string)
    (r : option (string * string)) (msgs : list string) (w : World) :
  find_scene export_settings scene_name w = (Ok r, log_more w msgs) ->
  use_external_scene export_settings scene_name w =
  match r with
  | None =>
      (Ok None,
       log_more w (msgs ++ ["Unable to find '" +:+ scene_name +:+ "' in project"])%list)
  | Some (scene_path, scene_type) =>
      match doc_get_external_resource (doc w) scene_name with
      | Some resource_id => (Ok (Some (ext_resource_token resource_id)), log_more w msgs)
      | None =>
          let '(resource_id, d) :=
            doc_add_external_resource (doc w)
              (mkExternalResource scene_path scene_type) scene_name in
          (Ok (Some (ext_resource_token resource_id)), with_doc (log_more w msgs) d)
      end
  end.
Proof.
  intros Hfind. unfold use_external_scene, mbind, M_bind, bind. rewrite Hfind.
  destruct r as [[scene_path scene_type]|].
  - unfold get_external_resource. cbn [doc log_more].
    destruct (doc_get_external_resource (doc w) scene_name); reflexivity.
  - unfold logging_warning, mret, M_ret, ret, log_more.
    cbn [doc warnings anim_calls]. now rewrite app_assoc.
Qed.

(** C1: when the resolver finds a scene for a name, two calls of
    [use_external_scene] with that name against the same scene file (and
    the same file system) return the same [ExtResource(id)] token, the id
    is the one registered under the name, the second call leaves the
    scene file as the first left it (it reuses the id instead of
    registering again), and over both calls at most one external resource
    is added: none when the name was already registered, exactly the
    found scene otherwise. *)
Theorem use_external_scene_twice (export_settings : ExportSettings)
    (scene_name : string) (w : World) (scene : string * string) :
  fst (find_scene export_settings scene_name w) = Ok (Some scene) ->
  exists resource_id w1 w2,
    use_external_scene export_settings scene_name w =
      (Ok (Some (ext_resource_token resource_id)), w1) /\
    use_external_scene export_settings scene_name w1 =
      (Ok (Some (ext_resource_token resource_id)), w2) /\
    doc_get_external_resource (doc w1) scene_name = Some resource_id /\
    doc w2 = doc w1 /\
    (doc_get_external_resource (doc w) scene_name = Some resource_id /\ doc w1 = doc w \/
     doc_get_external_resource (doc w) scene_name = None /\
     doc w1 = snd (doc_add_external_resource (doc w)
                     (mkExternalResource (fst scene) (snd scene)) scene_name)) /\
    List.length (external_resources (doc w2)) <= S (List.length (external_resources (doc w))).
Proof.
  intros Hfound.
  destruct (find_scene_run export_settings scene_name) as (r & msgs & _ & Hrun).
  rewrite Hrun in Hfound. simpl in Hfound. injection Hfound as ->.
  destruct scene as [scene_path scene_type].
  rewrite (use_external_scene_run _ _ _ _ w (Hrun w)).
  destruct (doc_get_external_resource (doc w) scene_name) as [rid|] eqn:Hget.
  - exists rid, (log_more w msgs), (log_more (log_more w msgs) msgs).
    rewrite (use_external_scene_run _ _ _ _ _ (Hrun _)). cbn [doc log_more].
    rewrite Hget. repeat split; auto.
  - cbn [doc_add_external_resource].
    set (rid := S (List.length (external_resources (doc w)))).
    set (w1 := with_doc (log_more w msgs) _).
    assert (Hget1 : doc_get_external_resource (doc w1) scene_name = Some rid)
      by apply lookup_insert_eq.
    exists rid, w1, (log_more w1 msgs).
    rewrite (use_external_scene_run _ _ _ _ _ (Hrun _)), Hget1.
    repeat split; auto. cbn. rewrite length_app. simpl. lia.
Qed.



(** The generic spatial node [export_empty_node] builds for an entity. *)
Lemma export_spatial_node_run {D} (node : Object D) (parent_gd_node : option Node)
    (w : World) :
  let empty_node :=
    node_set "transform" (VMatrix (matrix_local node))
      (NodeTemplate (name node) "Spatial" parent_gd_node) in
  export_spatial_node node parent_gd_node w =
  (Ok (Some empty_node), with_doc w (doc_add_node (doc w) empty_node)).
Proof. reflexivity. Qed.

(** All the runs of [export_empty_node] when empties are exported. *)
Lemma export_empty_node_run {D} (export_settings : ExportSettings) (node : Object D)
    (parent_gd_node : option Node) (w : World) :
  "EMPTY" ∈ object_types export_settings ->
  export_empty_node export_settings node parent_gd_node w =
  match re_match_scene (name node) with
  | None => export_spatial_node node parent_gd_node w
  | Some scene_name =>
      match use_external_scene export_settings scene_name w with
      | (Ok (Some instance), w1) =>
          if py_bool_str instance then
            let instance_node :=
              node_set "transform" (VMatrix (matrix_local node))
                (InstanceTemplate (name node) instance parent_gd_node) in
            (Ok (Some instance_node), with_doc w1 (doc_add_node (doc w1) instance_node))
          else export_spatial_node node parent_gd_node w1
      | (Ok None, w1) => export_spatial_node node parent_gd_node w1
      | (Raise e, w1) => (Raise e, w1)
      end
  end.
Proof.
  intros Hempty. unfold export_empty_node.
  rewrite bool_decide_false by (intros Hn; now apply Hn).
  destruct (re_match_scene (name node)) as [scene_name|]; [|reflexivity].
  unfold mbind, M_bind, bind.
  destruct (use_external_scene export_settings scene_name w) as [[[instance|]|e] w1];
    try reflexivity.
  destruct (py_bool_str instance); reflexivity.
Qed.

Lemma export_empty_node_skip {D} (export_settings : ExportSettings)
    (node : Object D) (parent_gd_node : option Node) (w : World) :
  "EMPTY" ∉ object_types export_settings ->
  export_empty_node export_settings node parent_gd_node w = (Ok parent_gd_node, w).
Proof.
  intros Hempty. unfold export_empty_node. now rewrite bool_decide_true.
Qed.

(** C5: when ["EMPTY"] is not among the configured [object_types],
    [export_empty_node] returns the parent node it was given and leaves the
    world as it was: no node is added to the scene file, nothing is
    registered or logged, and the animation exporter is not called.  The
    parent and the entity are values the function only reads. *)
Theorem export_empty_node_filtered {D} (export_settings : ExportSettings)
    (node : Object D) (parent_gd_node : option Node) (w : World) :
  "EMPTY" ∉ object_types export_settings ->
  export_empty_node export_settings node parent_gd_node w = (Ok parent_gd_node, w) /\
  doc (snd (export_empty_node export_settings node parent_gd_node w)) = doc w.
Proof.
  intros Hempty. now rewrite export_empty_node_skip.
Qed.

(** C6: when empties are exported, the name of the entity matches the
    scene file pattern and the resolver finds no scene for the matched
    name, [export_empty_node] does not raise: it logs the warning of
    [use_external_scene], builds a node of kind ["Spatial"] (not an
    instance node) under the parent, with the local transform of the
    entity, adds it to the scene file and returns it. *)
Theorem export_empty_node_unresolved_scene {D} (export_settings : ExportSettings)
    (node : Object D) (parent_gd_node : option Node) (w : World) (scene_name : string) :
  "EMPTY" ∈ object_types export_settings ->
  re_match_scene (name node) = Some scene_name ->
  fst (find_scene export_settings scene_name w) = Ok None ->
  let empty_node :=
    node_set "transform" (VMatrix (matrix_local node))
      (NodeTemplate (name node) "Spatial" parent_gd_node) in
  export_empty_node export_settings node parent_gd_node w =
    (Ok (Some empty_node),
     {| doc := doc_add_node (doc w) empty_node;
        warnings := warnings w ++ ["Unable to find '" +:+ scene_name +:+ "' in project"];
        anim_calls := anim_calls w |}) /\
  node_heading empty_node = HType "Spatial" /\
  node_parent empty_node = parent_gd_node /\
  node_attrs empty_node !! "transform" = Some (VMatrix (matrix_local node)).
Proof.
  intros Hempty Hmatch Hnone empty_node.
  destruct (find_scene_run export_settings scene_name) as (r & msgs & Hmsgs & Hrun).
  rewrite Hrun in Hnone. simpl in Hnone. injection Hnone as ->.
  rewrite (Hmsgs eq_refl) in Hrun.
  rewrite export_empty_node_run, Hmatch by assumption.
  rewrite (use_external_scene_run _ _ _ _ w (Hrun w)).
  repeat split.
Qed.







(** The table loop of the camera exporter. *)
Lemma camera_table_run (camera : Camera) (cam_node : Node) :
  apply_attribute_conversion (camera_getattr camera)
    (camera_attribute_conversion cam_node) cam_node =
  Ok (node_set "size" (VFloat (cam_ortho_scale camera))
        (node_set "near" (VFloat (cam_clip_start camera))
           (node_set "far" (VFloat (cam_clip_end camera)) cam_node))).
Proof. reflexivity. Qed.

(** A run of [export_camera_node]: it never raises. *)
Lemma export_camera_node_run (export_settings : ExportSettings)
    (node : Object Camera) (parent_gd_node : option Node) (w : World) :
  exists cam_node,
    export_camera_node export_settings node parent_gd_node w =
    (Ok cam_node,
     {| doc := animation_effect (doc_add_node (doc w) cam_node) export_settings
                 (Some cam_node) (CameraData (data node)) "camera";
        warnings := warnings w;
        anim_calls :=
          anim_calls w ++ [mkAnimCall (Some cam_node) (CameraData (data node)) "camera"] |}) /\
    node_heading cam_node = HType "Camera" /\
    node_attrs cam_node !! "projection" =
      Some (VInt (if decide (cam_type (data node) = "PERSP") then 0 else 1)).
Proof.
  unfold export_camera_node, mbind, M_bind, bind, lift. rewrite camera_table_run.
  eexists. split; [reflexivity|].
  destruct (String.eqb_spec (cam_type (data node)) "PERSP") as [Heq|Hne].
  - rewrite decide_True by assumption. split; reflexivity.
  - rewrite decide_False by assumption. split; reflexivity.
Qed.

(** C4: for every camera, [export_camera_node] returns a [Camera] node
    whose [projection] attribute is [0] when the type of the camera is
    ["PERSP"] and [1] for every other type. *)
Theorem export_camera_node_projection (export_settings : ExportSettings)
    (node : Object Camera) (parent_gd_node : option Node) (w : World) :
  exists cam_node w',
    export_camera_node export_settings node parent_gd_node w = (Ok cam_node, w') /\
    node_heading cam_node = HType "Camera" /\
    node_attrs cam_node !! "projection" =
      Some (VInt (if decide (cam_type (data node) = "PERSP") then 0 else 1)).
Proof.
  destruct (export_camera_node_run export_settings node parent_gd_node w)
    as (cam_node & Hrun & Hkind & Hproj).
  eauto.
Qed.


(** The spot blend conversion does not raise on a blend that is not
    negative. *)
Lemma spot_blend_conv_total (b : float) :
  (0 <=? b)%float = true -> spot_blend_conv b = Ok (0.2 / (b + 0.01))%float.
Proof.
  intros Hb. unfold spot_blend_conv, py_div. now rewrite add_epsilon_nonzero.
Qed.

Lemma omni_table_run (light : Light) (name : string) (parent : option Node) :
  let light_node := LightNode name "OmniLight" parent in
  apply_attribute_conversion (light_getattr light)
    (light_attribute_conversion light_node) light_node =
  Ok (node_set "omni_range" (VFloat (light_cutoff_distance light))
        (node_set "light_energy" (VFloat (abs (light_energy light / 100)))
           (common_light_attrs light light_node))).
Proof. reflexivity. Qed.

Lemma directional_table_run (light : Light) (name : string) (parent : option Node) :
  let light_node := LightNode name "DirectionalLight" parent in
  apply_attribute_conversion (light_getattr light)
    (light_attribute_conversion light_node) light_node =
  Ok (node_set "light_energy" (VFloat (abs (light_energy light)))
        (common_light_attrs light light_node)).
Proof. reflexivity. Qed.

Lemma spot_table_run (light : Light) (name : string) (parent : option Node) :
  let light_node := LightNode name "SpotLight" parent in
  apply_attribute_conversion (light_getattr light)
    (light_attribute_conversion light_node) light_node =
  match spot_blend_conv (light_spot_blend light) with
  | Ok attenuation =>
      Ok (node_set "spot_range" (VFloat (light_cutoff_distance light))
            (node_set "spot_angle_attenuation" (VFloat attenuation)
               (node_set "spot_angle" (VFloat (math_degrees (light_spot_size light / 2)))
                  (node_set "light_energy" (VFloat (abs (light_energy light / 100)))
                     (common_light_attrs light light_node)))))
  | Raise e => Raise e
  end.
Proof.
  cbv zeta. unfold light_attribute_conversion, LightNode, NodeTemplate, get_type.
  cbn [node_heading]. rewrite decide_False by discriminate.
  rewrite decide_True by reflexivity.
  cbn -[spot_blend_conv]. destruct (spot_blend_conv (light_spot_blend light)); reflexivity.
Qed.

(** A run of [export_light_node] on a light of a known kind. *)
Lemma export_light_node_known (export_settings : ExportSettings) (node : Object Light)
    (parent_gd_node : option Node) (w : World) (gd_type : string) :
  bl_light_to_gd_light !! light_type (data node) = Some gd_type ->
  let light := data node in
  let light_node := LightNode (name node) gd_type parent_gd_node in
  export_light_node export_settings node parent_gd_node w =
  match apply_attribute_conversion (light_getattr light)
          (light_attribute_conversion light_node) light_node with
  | Ok light_node =>
      let light_node :=
        node_set "shadow_enabled"
          (VBool (light_use_shadow light && cast_shadow (light_cycles light)))
          (node_set "light_negative" (VBool (light_energy light <? 0)%float)
             (node_set "transform"
                (VMatrix (fix_directional_transform (matrix_local node))) light_node)) in
      (Ok (Some light_node),
       {| doc := animation_effect (doc_add_node (doc w) light_node) export_settings
                   (Some light_node) (LightData light) "light";
          warnings := warnings w;
          anim_calls := anim_calls w ++ [mkAnimCall (Some light_node) (LightData light) "light"] |})
  | Raise e => (Raise e, w)
  end.
Proof.
  intros Hkind. cbv zeta. unfold export_light_node, mbind, M_bind, bind, lift.
  rewrite Hkind. unfold mret, M_ret, ret.
  destruct (apply_attribute_conversion _ _ _); reflexivity.
Qed.

Lemma bl_light_to_gd_light_spec (kind : string) :
  bl_light_to_gd_light !! kind =
  if decide (kind = "POINT") then Some "OmniLight"
  else if decide (kind = "SPOT") then Some "SpotLight"
  else if decide (kind = "SUN") then Some "DirectionalLight"
  else None.
Proof.
  unfold bl_light_to_gd_light.
  repeat case_decide; subst; try reflexivity.
  rewrite !lookup_insert_ne by congruence. apply lookup_singleton_ne. congruence.
Qed.

(** A run of [export_light_node] on a light of an unknown kind. *)
Lemma export_light_node_unknown_run (export_settings : ExportSettings)
    (node : Object Light) (parent_gd_node : option Node) (w : World) :
  bl_light_to_gd_light !! light_type (data node) = None ->
  export_light_node export_settings node parent_gd_node w =
    (Ok None,
     {| doc := animation_effect (doc w) export_settings None (LightData (data node)) "light";
        warnings := warnings w ++
                    ["Unknown light type. Use Point, Spot or Sun: " +:+ name node];
        anim_calls := anim_calls w ++ [mkAnimCall None (LightData (data node)) "light"] |}).
Proof.
  intros Hkind. unfold export_light_node, mbind, M_bind, bind. now rewrite Hkind.
Qed.

(** C9: for a light whose kind is none of [POINT], [SPOT] and [SUN],
    [export_light_node] raises nothing and returns [None]; it logs the
    warning about the unknown kind, converts no attribute and adds no
    node, and still calls the animation exporter, once, with the target
    [None].  The scene file is then what that call makes of it: unchanged
    when the animation exporter does nothing for a [None] target. *)
Theorem export_light_node_unknown_kind (export_settings : ExportSettings)
    (node : Object Light) (parent_gd_node : option Node) (w : World) :
  light_type (data node) <> "POINT" ->
  light_type (data node) <> "SPOT" ->
  light_type (data node) <> "SUN" ->
  export_light_node export_settings node parent_gd_node w =
    (Ok None,
     {| doc := animation_effect (doc w) export_settings None (LightData (data node)) "light";
        warnings := warnings w ++
                    ["Unknown light type. Use Point, Spot or Sun: " +:+ name node];
        anim_calls := anim_calls w ++ [mkAnimCall None (LightData (data node)) "light"] |}) /\
  ((forall d s b c, animation_effect d s None b c = d) ->
   doc (snd (export_light_node export_settings node parent_gd_node w)) = doc w).
Proof.
  intros Hpoint Hspot Hsun.
  assert (Hkind : bl_light_to_gd_light !! light_type (data node) = None)
    by (rewrite bl_light_to_gd_light_spec, !decide_False by assumption; reflexivity).
  rewrite (export_light_node_unknown_run _ _ _ _ Hkind).
  split; [reflexivity|]. intros Hnoop. apply Hnoop.
Qed.


(** C3: for every energy [e], the one entry for the energy in the Omni
    table and in the Spot table converts [e] to [abs (e / 100)], and the
    one in the Directional table converts it to [abs e]; each table has
    no other entry that reads [energy] or writes [light_energy].  The
    exporter writes these values: a [POINT] or [SPOT] light gets
    [light_energy = abs (e / 100)], a [SUN] light [abs e].  In binary64,
    [-250] gives [2.5] and [-3.5] gives [3.5]. *)
Theorem light_energy_conversion (e : float) :
  (forall name parent,
     exists item,
       energy_entries (light_attribute_conversion (LightNode name "OmniLight" parent)) = [item] /\
       bl_attr item = "energy" /\ gd_attr item = "light_energy" /\
       converter item (VFloat e) = Ok (VFloat (abs (e / 100)))) /\
  (forall name parent,
     exists item,
       energy_entries (light_attribute_conversion (LightNode name "SpotLight" parent)) = [item] /\
       bl_attr item = "energy" /\ gd_attr item = "light_energy" /\
       converter item (VFloat e) = Ok (VFloat (abs (e / 100)))) /\
  (forall name parent,
     exists item,
       energy_entries
         (light_attribute_conversion (LightNode name "DirectionalLight" parent)) = [item] /\
       bl_attr item = "energy" /\ gd_attr item = "light_energy" /\
       converter item (VFloat e) = Ok (VFloat (abs e))) /\
  (forall export_settings (node : Object Light) parent_gd_node w,
     light_energy (data node) = e ->
     (light_type (data node) = "POINT" ->
      exists light_node w',
        export_light_node export_settings node parent_gd_node w = (Ok (Some light_node), w') /\
        get_type light_node = Some "OmniLight" /\
        node_attrs light_node !! "light_energy" = Some (VFloat (abs (e / 100)))) /\
     (light_type (data node) = "SPOT" ->
      (0 <=? light_spot_blend (data node))%float = true ->
      exists light_node w',
        export_light_node export_settings node parent_gd_node w = (Ok (Some light_node), w') /\
        get_type light_node = Some "SpotLight" /\
        node_attrs light_node !! "light_energy" = Some (VFloat (abs (e / 100)))) /\
     (light_type (data node) = "SUN" ->
      exists light_node w',
        export_light_node export_settings node parent_gd_node w = (Ok (Some light_node), w') /\
        get_type light_node = Some "DirectionalLight" /\
        node_attrs light_node !! "light_energy" = Some (VFloat (abs e)))) /\
  abs (-250 / 100)%float = 2.5%float /\
  abs (-3.5)%float = 3.5%float.
Proof.
  split; [|split; [|split; [|split; [|split; reflexivity]]]].
  - intros name parent. eexists. split; [reflexivity|]. repeat split.
  - intros name parent. eexists. split; [reflexivity|]. repeat split.
  - intros name parent. eexists. split; [reflexivity|]. repeat split.
  - intros export_settings node parent_gd_node w <-. split; [|split].
    + intros Hkind.
      rewrite (export_light_node_known _ _ _ _ "OmniLight")
        by (rewrite bl_light_to_gd_light_spec, Hkind; reflexivity).
      cbv zeta. rewrite omni_table_run. eexists _, _. split; [reflexivity|].
      split; reflexivity.
    + intros Hkind Hblend.
      rewrite (export_light_node_known _ _ _ _ "SpotLight")
        by (rewrite bl_light_to_gd_light_spec, Hkind; reflexivity).
      cbv zeta. rewrite spot_table_run, spot_blend_conv_total by assumption.
      eexists _, _. split; [reflexivity|]. split; reflexivity.
    + intros Hkind.
      rewrite (export_light_node_known _ _ _ _ "DirectionalLight")
        by (rewrite bl_light_to_gd_light_spec, Hkind; reflexivity).
      cbv zeta. rewrite directional_table_run. eexists _, _. split; [reflexivity|].
      split; reflexivity.
Qed.



End ExporterProperties.

(** ** The spot blend conversion *)

(** Read in exact arithmetic, the expression is strictly decreasing on
    the blends that are not negative: it is the rounding of binary64 that
    can give two blends the same result. *)
Lemma spot_blend_exact_decreasing (x y : Q) :
  (0 <= x)%Q -> (x < y)%Q -> (spot_blend_exact y < spot_blend_exact x)%Q.
Proof.
  intros Hx Hxy. unfold spot_blend_exact, Qdiv.
  apply Qmult_lt_l; [reflexivity|].
  apply -> Qinv_lt_contravar; lra.
Qed.

(** C2, as amended: the spot blend conversion maps [b] to
    [0.2 / (b + 0.01)], computed in binary64.  On every double in [0, 1]
    the divisor is not zero, so the conversion returns there without
    raising; it is decreasing on [0, 1] in the weak sense: a larger blend
    never gives a larger result.  At [0] it gives exactly [20] and at [1]
    exactly the double [0.2 / 1.01], which is strictly smaller. *)
Theorem spot_blend_conversion :
  (forall b : float,
     (0 <=? b)%float = true -> (b <=? 1)%float = true ->
     (b + 0.01 =? 0)%float = false /\ spot_blend_conv b = Ok (0.2 / (b + 0.01))%float) /\
  (forall b1 b2 : float,
     (0 <=? b1)%float = true -> (b1 <=? b2)%float = true -> (b2 <=? 1)%float = true ->
     exists y1 y2,
       spot_blend_conv b1 = Ok y1 /\ spot_blend_conv b2 = Ok y2 /\
       (y2 <=? y1)%float = true) /\
  spot_blend_conv 0 = Ok 20%float /\
  spot_blend_conv 1 = Ok (0.2 / 1.01)%float /\
  (0.2 / 1.01 <? 20)%float = true.
Proof.
  split; [|split; [|repeat split]].
  - intros b Hb _. split; [now apply add_epsilon_nonzero|now apply spot_blend_conv_total].
  - intros b1 b2 H0 H12 H23.
    assert (H02 : (0 <=? b2)%float = true).
    { destruct (spot_blend_float_nonneg b1 b2 H0 H12 H23) as [_ H]. exact H. }
    exists (0.2 / (b1 + 0.01))%float, (0.2 / (b2 + 0.01))%float.
    rewrite !spot_blend_conv_total by assumption.
    split; [reflexivity|]. split; [reflexivity|]. now apply spot_blend_float_monotone.
Qed.

(** ** Further properties of the exporters *)

(** The first element [List.find] returns splits the list. *)
Lemma find_first_split {A} (f : A -> bool) (l : list A) (x : A) :
  List.find f l = Some x ->
  exists pre post, l = (pre ++ x :: post)%list /\ f x = true /\
                   List.Forall (fun y => f y = false) pre.
Proof.
  induction l as [|y l IH]; simpl; [discriminate|].
  destruct (f y) eqn:Hy.
  - intros [= ->]. exists [], l. auto.
  - intros Hl. destruct (IH Hl) as (pre & post & -> & Hx & Hpre).
    exists (y :: pre), post. auto.
Qed.

Lemma find_none_all {A} (f : A -> bool) (l : list A) :
  List.find f l = None -> List.Forall (fun y => f y = false) l.
Proof.
  induction l as [|y l IH]; simpl; [constructor|].
  destruct (f y) eqn:Hy; [discriminate|]. auto.
Qed.

Section MoreProperties.

Context `{Host} `{OS} `{!Animation}.

(** X1: [find_shader_node] returns the first node of the tree whose
    [bl_idname] is the name, and then logs nothing; when no node of the
    tree has that [bl_idname] it returns [None] and logs one warning.
    Either way the scene file is untouched. *)
Theorem find_shader_node_first (node_tree : NodeTree) (name : string) (w : World) :
  (exists pre node post,
     tree_nodes node_tree = (pre ++ node :: post)%list /\
     List.Forall (fun n => bl_idname n <> name) pre /\
     bl_idname node = name /\
     find_shader_node node_tree name w = (Ok (Some node), w)) \/
  (List.Forall (fun n => bl_idname n <> name) (tree_nodes node_tree) /\
   find_shader_node node_tree name w =
     (Ok None, log_more w [name +:+ " node not found"])).
Proof.
  unfold find_shader_node.
  destruct (List.find _ (tree_nodes node_tree)) as [node|] eqn:Hfind.
  - left. apply find_first_split in Hfind as (pre & post & Hsplit & Hnode & Hpre).
    exists pre, node, post. repeat split; try assumption.
    + eapply Forall_impl; [exact Hpre|]. intros n Hn. now apply String.eqb_neq.
    + now apply String.eqb_eq.
  - right. apply find_none_all in Hfind. split; [|reflexivity].
    eapply Forall_impl; [exact Hfind|]. intros n Hn. now apply String.eqb_neq.
Qed.

(** X2: [node_input] returns the default value of the first input of
    the node that has the name, and then logs nothing; when the node has
    no input of that name it returns [None] and logs one warning that
    names the input and the [bl_idname] of the node. *)
Theorem node_input_first (node : ShaderNode) (name : string) (w : World) :
  (exists pre inp post,
     inputs node = (pre ++ inp :: post)%list /\
     List.Forall (fun i => socket_name i <> name) pre /\
     socket_name inp = name /\
     node_input node name w = (Ok (Some (default_value inp)), w)) \/
  (List.Forall (fun i => socket_name i <> name) (inputs node) /\
   node_input node name w =
     (Ok None, log_more w [name +:+ " input not found in " +:+ bl_idname node])).
Proof.
  unfold node_input.
  destruct (List.find _ (inputs node)) as [inp|] eqn:Hfind.
  - left. apply find_first_split in Hfind as (pre & post & Hsplit & Hinp & Hpre).
    exists pre, inp, post. repeat split; try assumption.
    + eapply Forall_impl; [exact Hpre|]. intros n Hn. now apply String.eqb_neq.
    + now apply String.eqb_eq.
  - right. apply find_none_all in Hfind. split; [|reflexivity].
    eapply Forall_impl; [exact Hfind|]. intros n Hn. now apply String.eqb_neq.
Qed.





(** X6: when no search directory is configured ([material_search_paths]
    is neither ["PROJECT_DIR"] nor ["EXPORT_DIR"], or it is
    ["PROJECT_DIR"] and the project path function returns [None]),
    [export_empty_node] never builds an instance node and never registers
    an external resource, whatever the file system holds: an exported
    empty becomes a [Spatial] node. *)
Theorem export_empty_node_search_disabled {D} (export_settings : ExportSettings)
    (node : Object D) (parent_gd_node : option Node) (w : World) :
  "EMPTY" ∈ object_types export_settings ->
  (material_search_paths export_settings = "PROJECT_DIR" /\
   project_path_func export_settings tt = None) \/
  (material_search_paths export_settings <> "PROJECT_DIR" /\
   material_search_paths export_settings <> "EXPORT_DIR") ->
  exists empty_node w',
    export_empty_node export_settings node parent_gd_node w = (Ok (Some empty_node), w') /\
    node_heading empty_node = HType "Spatial" /\
    nodes (doc w') = (nodes (doc w) ++ [empty_node])%list /\
    external_resources (doc w') = external_resources (doc w) /\
    external_hashes (doc w') = external_hashes (doc w).
Proof.
  intros Hempty Hdir.
  assert (Hfind : forall scene_name w0,
            find_scene export_settings scene_name w0 = (Ok None, log_more w0 [])).
  { intros scene_name w0. unfold find_scene. rewrite log_more_nil.
    destruct Hdir as [[-> ->]|[Hp He]]; [reflexivity|].
    apply String.eqb_neq in Hp, He. now rewrite Hp, He. }
  rewrite export_empty_node_run by assumption.
  destruct (re_match_scene (name node)) as [scene_name|].
  - rewrite (use_external_scene_run _ _ _ _ w (Hfind scene_name w)).
    eexists _, _. split; [reflexivity|]. repeat split.
  - eexists _, _. split; [reflexivity|]. repeat split.
Qed.





(** X9: [export_camera_node] never raises and logs nothing.  The node it
    returns has the name of the entity, the parent it was given, the type
    [Camera] and exactly six attributes: [far], [near] and [size] copied
    from the camera, [projection], [fov] as the angle of the camera in
    degrees, and [transform] as the local matrix with the direction fix.
    The node is added to the scene file before the animation exporter is
    called on it. *)
Theorem export_camera_node_attributes (export_settings : ExportSettings)
    (node : Object Camera) (parent_gd_node : option Node) (w : World) :
  exists cam_node w',
    export_camera_node export_settings node parent_gd_node w = (Ok cam_node, w') /\
    cam_node =
      mkNode (name node) (HType "Camera") parent_gd_node
        {[ "transform" := VMatrix (fix_directional_transform (matrix_local node));
           "fov" := VFloat (math_degrees (cam_angle (data node)));
           "projection" := VInt (if String.eqb (cam_type (data node)) "PERSP" then 0 else 1);
           "size" := VFloat (cam_ortho_scale (data node));
           "near" := VFloat (cam_clip_start (data node));
           "far" := VFloat (cam_clip_end (data node)) ]} /\
    warnings w' = warnings w /\
    doc w' = animation_effect (doc_add_node (doc w) cam_node) export_settings
               (Some cam_node) (CameraData (data node)) "camera".
Proof.
  unfold export_camera_node, mbind, M_bind, bind, lift. rewrite camera_table_run.
  eexists _, _. split; [reflexivity|].
  destruct (String.eqb (cam_type (data node)) "PERSP"); repeat split.
Qed.

(** Writing an attribute changes the attributes only. *)
Lemma node_set_lookup (key : string) (v : value) (n : Node) (k : string) :
  node_attrs (node_set key v n) !! k =
  if decide (key = k) then Some v else node_attrs n !! k.
Proof.
  destruct n as [x h p a]. cbn. case_decide as Hk.
  - subst. apply lookup_insert_eq.
  - now apply lookup_insert_ne.
Qed.

Lemma node_set_frame (key : string) (v : value) (n : Node) :
  node_name (node_set key v n) = node_name n /\
  node_heading (node_set key v n) = node_heading n /\
  node_parent (node_set key v n) = node_parent n.
Proof. destruct n. repeat split. Qed.

(** X10: the table loop of the camera and light exporters.  When it
    succeeds, the node keeps its name, type and parent; an attribute no
    entry writes keeps its value; and for an entry that no later entry
    overwrites, the attribute holds the converted source attribute.  When
    it raises, the exception is the one of the first entry whose source
    attribute is missing or whose converter fails, and all entries
    before that one succeeded. *)
Theorem apply_attribute_conversion_spec (getattr : string -> Result value)
    (table : list AttributeConvertInfo) (gd_node : Node) :
  match apply_attribute_conversion getattr table gd_node with
  | Ok converted =>
      node_name converted = node_name gd_node /\
      node_heading converted = node_heading gd_node /\
      node_parent converted = node_parent gd_node /\
      (forall key, (forall item, In item table -> gd_attr item <> key) ->
                   node_attrs converted !! key = node_attrs gd_node !! key) /\
      (forall pre item post,
         table = (pre ++ item :: post)%list ->
         (forall later, In later post -> gd_attr later <> gd_attr item) ->
         exists v v', getattr (bl_attr item) = Ok v /\ converter item v = Ok v' /\
                      node_attrs converted !! gd_attr item = Some v')
  | Raise e =>
      exists pre item post,
        table = (pre ++ item :: post)%list /\
        (forall earlier, In earlier pre ->
           exists v v', getattr (bl_attr earlier) = Ok v /\ converter earlier v = Ok v') /\
        (getattr (bl_attr item) = Raise e \/
         exists v, getattr (bl_attr item) = Ok v /\ converter item v = Raise e)
  end.
Proof.
  revert gd_node. induction table as [|first rest IH]; intros gd_node.
  - simpl. repeat split. intros [|? ?] ? ? [=].
  - simpl. destruct (getattr (bl_attr first)) as [v|e] eqn:Hget.
    2:{ exists [], first, rest. split; [reflexivity|]. split; [intros ? []|]. now left. }
    destruct (converter first v) as [v'|e] eqn:Hconv.
    2:{ exists [], first, rest. split; [reflexivity|]. split; [intros ? []|]. right. eauto. }
    specialize (IH (node_set (gd_attr first) v' gd_node)).
    destruct (apply_attribute_conversion getattr rest _) as [converted|e].
    + destruct IH as (Hname & Hheading & Hparent & Hframe & Hlast).
      destruct (node_set_frame (gd_attr first) v' gd_node) as (Hn & Hh & Hp).
      split; [congruence|]. split; [congruence|]. split; [congruence|]. split.
      * intros key Hkey. rewrite Hframe by (intros item Hin; apply Hkey; now right).
        rewrite node_set_lookup, decide_False; [reflexivity|].
        apply Hkey. now left.
      * intros [|x pre] item post Htable Hlater.
        -- injection Htable as <- <-. exists v, v'. split; [exact Hget|].
           split; [exact Hconv|].
           rewrite Hframe by (intros later Hin; now apply Hlater).
           rewrite node_set_lookup, decide_True; reflexivity.
        -- injection Htable as <- ->. apply (Hlast pre item post); auto.
    + destruct IH as (pre & item & post & -> & Hpre & Hitem).
      exists (first :: pre), item, post. split; [reflexivity|]. split; [|exact Hitem].
      intros earlier [<-|Hin]; eauto.
Qed.

(** *** Lights *)

(** What a successful run of [export_light_node] on a light that gets a
    node went through. *)
Lemma export_light_node_some (export_settings : ExportSettings) (node : Object Light)
    (parent_gd_node : option Node) (w w' : World) (light_node : Node) :
  export_light_node export_settings node parent_gd_node w = (Ok (Some light_node), w') ->
  exists gd_type table_node,
    bl_light_to_gd_light !! light_type (data node) = Some gd_type /\
    apply_attribute_conversion (light_getattr (data node))
      (light_attribute_conversion (LightNode (name node) gd_type parent_gd_node))
      (LightNode (name node) gd_type parent_gd_node) = Ok table_node /\
    light_node =
      node_set "shadow_enabled"
        (VBool (light_use_shadow (data node) && cast_shadow (light_cycles (data node))))
        (node_set "light_negative" (VBool (light_energy (data node) <? 0)%float)
           (node_set "transform"
              (VMatrix (fix_directional_transform (matrix_local node))) table_node)) /\
    w' = {| doc := animation_effect (doc_add_node (doc w) light_node) export_settings
                     (Some light_node) (LightData (data node)) "light";
            warnings := warnings w;
            anim_calls :=
              anim_calls w ++ [mkAnimCall (Some light_node) (LightData (data node)) "light"] |}.
Proof.
  intros Hrun. destruct (bl_light_to_gd_light !! light_type (data node)) as [gd_type|] eqn:Hkind.
  - rewrite (export_light_node_known _ _ _ _ _ Hkind) in Hrun. cbv zeta in Hrun.
    destruct (apply_attribute_conversion _ _ _) as [table_node|e] eqn:Htable; [|discriminate].
    injection Hrun as <- <-. exists gd_type, table_node. repeat split. exact Htable.
  - rewrite export_light_node_unknown_run in Hrun by assumption. discriminate.
Qed.

(** The table of each of the three kinds, run on a new light node. *)
Lemma light_table_cases (light : Light) (name : string) (parent : option Node)
    (gd_type : string) (table_node : Node) :
  bl_light_to_gd_light !! light_type light = Some gd_type ->
  apply_attribute_conversion (light_getattr light)
    (light_attribute_conversion (LightNode name gd_type parent))
    (LightNode name gd_type parent) = Ok table_node ->
  (light_type light = "POINT" /\ gd_type = "OmniLight" /\
   table_node =
     node_set "omni_range" (VFloat (light_cutoff_distance light))
       (node_set "light_energy" (VFloat (abs (light_energy light / 100)))
          (common_light_attrs light (LightNode name gd_type parent)))) \/
  (light_type light = "SPOT" /\ gd_type = "SpotLight" /\
   exists attenuation,
     spot_blend_conv (light_spot_blend light) = Ok attenuation /\
     table_node =
       node_set "spot_range" (VFloat (light_cutoff_distance light))
         (node_set "spot_angle_attenuation" (VFloat attenuation)
            (node_set "spot_angle" (VFloat (math_degrees (light_spot_size light / 2)))
               (node_set "light_energy" (VFloat (abs (light_energy light / 100)))
                  (common_light_attrs light (LightNode name gd_type parent)))))) \/
  (light_type light = "SUN" /\ gd_type = "DirectionalLight" /\
   table_node =
     node_set "light_energy" (VFloat (abs (light_energy light)))
       (common_light_attrs light (LightNode name gd_type parent))).
Proof.
  rewrite bl_light_to_gd_light_spec. repeat case_decide; intros [= <-].
  - rewrite omni_table_run. intros [= <-]. left. auto.
  - rewrite spot_table_run.
    destruct (spot_blend_conv (light_spot_blend light)) as [attenuation|e] eqn:Hblend;
      [|discriminate].
    intros [= <-]. right. left. eauto.
  - rewrite directional_table_run. intros [= <-]. right. right. auto.
Qed.

(** X11: a light node that [export_light_node] returns has the name of
    the entity, the parent it was given and the Godot type its kind maps
    to ([POINT] to [OmniLight], [SPOT] to [SpotLight], [SUN] to
    [DirectionalLight]).  Whatever the kind, it carries the specular
    factor unchanged, both colours gamma corrected, the local matrix with
    the direction fix, and [shadow_enabled] as the conjunction of the
    shadow switch of the light and of its Cycles settings.  Nothing is
    logged, and the node is in the scene file when the animation exporter
    is called on it. *)
Theorem export_light_node_node (export_settings : ExportSettings) (node : Object Light)
    (parent_gd_node : option Node) (w w' : World) (light_node : Node) :
  export_light_node export_settings node parent_gd_node w = (Ok (Some light_node), w') ->
  let light := data node in
  node_name light_node = name node /\
  node_parent light_node = parent_gd_node /\
  (light_type light = "POINT" /\ node_heading light_node = HType "OmniLight" \/
   light_type light = "SPOT" /\ node_heading light_node = HType "SpotLight" \/
   light_type light = "SUN" /\ node_heading light_node = HType "DirectionalLight") /\
  node_attrs light_node !! "light_specular" = Some (VFloat (light_specular_factor light)) /\
  node_attrs light_node !! "light_color" = Some (VColor (gamma_correct (light_color light))) /\
  node_attrs light_node !! "shadow_color" =
    Some (VColor (gamma_correct (light_shadow_color light))) /\
  node_attrs light_node !! "transform" =
    Some (VMatrix (fix_directional_transform (matrix_local node))) /\
  node_attrs light_node !! "shadow_enabled" =
    Some (VBool (light_use_shadow light && cast_shadow (light_cycles light))) /\
  warnings w' = warnings w /\
  doc w' = animation_effect (doc_add_node (doc w) light_node) export_settings
             (Some light_node) (LightData light) "light".
Proof.
  intros Hrun. cbv zeta.
  destruct (export_light_node_some _ _ _ _ _ _ Hrun)
    as (gd_type & table_node & Hkind & Htable & Hnode & ->).
  destruct (light_table_cases _ _ _ _ _ Hkind Htable)
    as [(Hk & -> & ->) | [(Hk & -> & attenuation & _ & ->) | (Hk & -> & ->)]];
    subst light_node; repeat split; auto.
Qed.

(** X12: the attributes of an exported light are those of its kind and no
    others: the six common ones and [light_energy] for every kind, plus
    [omni_range] for a point light, and [spot_angle],
    [spot_angle_attenuation] and [spot_range] for a spot light.  A sun
    has no range and no angle. *)
Theorem export_light_node_attribute_names (export_settings : ExportSettings)
    (node : Object Light) (parent_gd_node : option Node) (w w' : World)
    (light_node : Node) :
  export_light_node export_settings node parent_gd_node w = (Ok (Some light_node), w') ->
  let common : gset string :=
    {[ "light_specular"; "light_color"; "shadow_color"; "light_energy";
       "transform"; "light_negative"; "shadow_enabled" ]} in
  dom (node_attrs light_node) =
  if decide (light_type (data node) = "POINT") then common ∪ {[ "omni_range" ]}
  else if decide (light_type (data node) = "SPOT")
       then common ∪ {[ "spot_angle"; "spot_angle_attenuation"; "spot_range" ]}
       else common.
Proof.
  intros Hrun. cbv zeta.
  destruct (export_light_node_some _ _ _ _ _ _ Hrun)
    as (gd_type & table_node & Hkind & Htable & Hnode & _).
  destruct (light_table_cases _ _ _ _ _ Hkind Htable)
    as [(Hk & -> & ->) | [(Hk & -> & attenuation & _ & ->) | (Hk & -> & ->)]];
    subst light_node; rewrite Hk; cbn;
    rewrite !dom_insert_L, dom_empty_L; set_solver.
Qed.

(** The absolute value of a binary64 number is never below zero. *)
Lemma abs_not_negative (x : float) : (abs x <? 0)%float = false.
Proof.
  rewrite FloatAxioms.ltb_spec, FloatAxioms.abs_spec.
  destruct (Prim2SF x) as [s|s| |s m e]; reflexivity.
Qed.

(** X13: the energy of an exported light is never negative, whatever the
    kind and the source energy (for a NaN it is a NaN): the sign of the
    source energy goes to [light_negative], which is true exactly when
    the source energy is below zero. *)
Theorem export_light_node_energy_sign (export_settings : ExportSettings)
    (node : Object Light) (parent_gd_node : option Node) (w w' : World)
    (light_node : Node) :
  export_light_node export_settings node parent_gd_node w = (Ok (Some light_node), w') ->
  exists energy,
    node_attrs light_node !! "light_energy" = Some (VFloat energy) /\
    (energy <? 0)%float = false /\
    node_attrs light_node !! "light_negative" =
      Some (VBool (light_energy (data node) <? 0)%float).
Proof.
  intros Hrun.
  destruct (export_light_node_some _ _ _ _ _ _ Hrun)
    as (gd_type & table_node & Hkind & Htable & Hnode & _).
  destruct (light_table_cases _ _ _ _ _ Hkind Htable)
    as [(Hk & -> & ->) | [(Hk & -> & attenuation & _ & ->) | (Hk & -> & ->)]];
    subst light_node; eexists; (split; [reflexivity|]);
    (split; [apply abs_not_negative|reflexivity]).
Qed.

(** The magnitude and the sign of a number give the number back. *)
Lemma abs_sign_round_trip (x : float) :
  (x =? x)%float = true ->
  ((if (x <? 0)%float then - abs x else abs x) =? x)%float = true.
Proof.
  rewrite FloatAxioms.ltb_spec.
  assert (Hcmp : forall s m e, SFeqb (S754_finite s m e) (S754_finite s m e) = true).
  { intros s m e. unfold SFeqb, SFcompare.
    rewrite Z.compare_refl, Pos.compare_cont_refl. now destruct s. }
  destruct (Prim2SF x) as [s|s| |s m e] eqn:Hx.
  - intros _. replace (SFltb (S754_zero s) (Prim2SF 0)) with false by reflexivity.
    rewrite FloatAxioms.eqb_spec, FloatAxioms.abs_spec, Hx. reflexivity.
  - intros _. destruct s.
    + replace (SFltb (S754_infinity true) (Prim2SF 0)) with true by reflexivity.
      rewrite FloatAxioms.eqb_spec, FloatAxioms.opp_spec, FloatAxioms.abs_spec, Hx.
      reflexivity.
    + replace (SFltb (S754_infinity false) (Prim2SF 0)) with false by reflexivity.
      rewrite FloatAxioms.eqb_spec, FloatAxioms.abs_spec, Hx. reflexivity.
  - rewrite FloatAxioms.eqb_spec, Hx. discriminate.
  - intros _. destruct s.
    + replace (SFltb (S754_finite true m e) (Prim2SF 0)) with true by reflexivity.
      rewrite FloatAxioms.eqb_spec, FloatAxioms.opp_spec, FloatAxioms.abs_spec, Hx.
      apply Hcmp.
    + replace (SFltb (S754_finite false m e) (Prim2SF 0)) with false by reflexivity.
      rewrite FloatAxioms.eqb_spec, FloatAxioms.abs_spec, Hx. apply Hcmp.
Qed.

(** X14: a sun keeps its energy through the export.  For every energy
    that is a number, the exported [light_energy], negated when
    [light_negative] is set, compares equal to the source energy. *)
Theorem export_sun_energy_round_trip (export_settings : ExportSettings)
    (node : Object Light) (parent_gd_node : option Node) (w : World) :
  light_type (data node) = "SUN" ->
  (light_energy (data node) =? light_energy (data node))%float = true ->
  exists light_node w' energy negative,
    export_light_node export_settings node parent_gd_node w = (Ok (Some light_node), w') /\
    node_attrs light_node !! "light_energy" = Some (VFloat energy) /\
    node_attrs light_node !! "light_negative" = Some (VBool negative) /\
    ((if negative then - energy else energy) =? light_energy (data node))%float = true.
Proof.
  intros Hkind Hnumber.
  rewrite (export_light_node_known _ _ _ _ "DirectionalLight")
    by (rewrite bl_light_to_gd_light_spec, Hkind; reflexivity).
  cbv zeta. rewrite directional_table_run.
  eexists _, _, _, _. split; [reflexivity|]. split; [reflexivity|].
  split; [reflexivity|]. now apply abs_sign_round_trip.
Qed.

(** X15: [export_light_node] raises in one case only: a spot light whose
    blend plus [0.01] is zero in binary64.  The exception is then a
    [ZeroDivisionError], raised by the table loop before anything is
    logged, added to the scene file or handed to the animation
    exporter. *)
Theorem export_light_node_raises (export_settings : ExportSettings)
    (node : Object Light) (parent_gd_node : option Node) (w : World) :
  ((exists e, fst (export_light_node export_settings node parent_gd_node w) = Raise e) <->
   light_type (data node) = "SPOT" /\
   (light_spot_blend (data node) + 0.01 =? 0)%float = true) /\
  (forall e,
     fst (export_light_node export_settings node parent_gd_node w) = Raise e ->
     export_light_node export_settings node parent_gd_node w = (Raise ZeroDivisionError, w)).
Proof.
  pose proof (bl_light_to_gd_light_spec (light_type (data node))) as Hkind.
  repeat case_decide.
  - rewrite (export_light_node_known _ _ _ _ _ Hkind). cbv zeta. rewrite omni_table_run.
    split; [split|]; simpl.
    + intros [e [=]].
    + intros [Hspot _]. congruence.
    + intros e [=].
  - rewrite (export_light_node_known _ _ _ _ _ Hkind). cbv zeta. rewrite spot_table_run.
    unfold spot_blend_conv, py_div.
    destruct (light_spot_blend (data node) + 0.01 =? 0)%float; simpl.
    + split; [split|]; eauto.
    + split; [split|].
      * intros [e [=]].
      * intros [_ [=]].
      * intros e [=].
  - rewrite (export_light_node_known _ _ _ _ _ Hkind). cbv zeta.
    rewrite directional_table_run. split; [split|]; simpl.
    + intros [e [=]].
    + intros [Hspot _]. congruence.
    + intros e [=].
  - rewrite (export_light_node_unknown_run _ _ _ _ Hkind). split; [split|]; simpl.
    + intros [e [=]].
    + intros [Hspot _]. congruence.
    + intros e [=].
Qed.

End MoreProperties.

(** *** Names and tokens *)

(** X16: the scene name [export_empty_node] takes from an entity name is
    a name that matches as a whole: an entity named after it is looked
    up under the same scene name. *)
Theorem re_match_scene_idempotent (s g : string) :
  re_match_scene s = Some g -> re_match_scene g = Some g.
Proof.
  intros Hmatch.
  apply re_match_scene_sound in Hmatch as (u & suf & rest & -> & _ & Hsuf & Hu).
  now apply re_match_scene_whole.
Qed.

Lemma string_app_inv_r (a b c : string) : a +:+ c = b +:+ c -> a = b.
Proof.
  revert b. induction a as [|x a IH]; intros [|y b]; simpl; intros Heq.
  - reflexivity.
  - apply (f_equal String.length) in Heq. simpl in Heq.
    rewrite string_app_length in Heq. lia.
  - apply (f_equal String.length) in Heq. simpl in Heq.
    rewrite string_app_length in Heq. lia.
  - injection Heq as -> Heq. f_equal. now apply IH.
Qed.

Lemma to_uint_not_nil (n : nat) : Nat.to_uint n <> Decimal.Nil.
Proof.
  intros Hn. pose proof (DecimalNat.Unsigned.of_to n) as Hof.
  rewrite Hn in Hof. simpl in Hof. subst n. discriminate.
Qed.

(** X17: the token [ExtResource(id)] determines the identifier: two
    identifiers have the same token only when they are equal, so instance
    nodes of different resources never share a heading. *)
Theorem ext_resource_token_injective (a b : nat) :
  ext_resource_token a = ext_resource_token b <-> a = b.
Proof.
  split; [|congruence]. unfold ext_resource_token. intros Heq.
  simpl in Heq. injection Heq as Heq. apply string_app_inv_r in Heq.
  apply DecimalNat.Unsigned.to_uint_inj.
  pose proof (NilZero.usu _ (to_uint_not_nil a)) as Ha.
  pose proof (NilZero.usu _ (to_uint_not_nil b)) as Hb.
  rewrite Heq in Ha. congruence.
Qed.

(** ** Runs on the concrete project *)

#[local] Existing Instances ex_host ex_os ex_animation.

(* A decidable, closed proposition proved by evaluating its decision. *)
Ltac by_deciding :=
  match goal with
  | |- ?P => apply (@bool_decide_unpack P _); vm_compute; exact I
  end.

Lemma use_external_scene_twice_witness :
  exists resource_id w1 w2,
    use_external_scene ex_settings "tree.tscn" ex_world =
      (Ok (Some (ext_resource_token resource_id)), w1) /\
    use_external_scene ex_settings "tree.tscn" w1 =
      (Ok (Some (ext_resource_token resource_id)), w2) /\
    doc_get_external_resource (doc w1) "tree.tscn" = Some resource_id /\
    doc w2 = doc w1 /\
    (doc_get_external_resource (doc ex_world) "tree.tscn" = Some resource_id /\
     doc w1 = doc ex_world \/
     doc_get_external_resource (doc ex_world) "tree.tscn" = None /\
     doc w1 = snd (doc_add_external_resource (doc ex_world)
                     (mkExternalResource "/proj/levels/tree.tscn" "PackedScene")
                     "tree.tscn")) /\
    List.length (external_resources (doc w2)) <=
      S (List.length (external_resources (doc ex_world))).
Proof.
  apply (use_external_scene_twice ex_settings "tree.tscn" ex_world
           ("/proj/levels/tree.tscn", "PackedScene")).
  vm_compute. reflexivity.
Defined.

Lemma spot_blend_conversion_witness :
  exists y1 y2,
    spot_blend_conv 0.15 = Ok y1 /\ spot_blend_conv 0.75 = Ok y2 /\
    (y2 <=? y1)%float = true.
Proof.
  destruct spot_blend_conversion as (_ & Hmono & _).
  apply (Hmono 0.15%float 0.75%float); vm_compute; reflexivity.
Defined.

(** In binary64 the conversion is not strictly decreasing on [0, 1]: the
    blends [0] and [2^-100] lie in the interval, the first is smaller,
    and both are converted to [20]. *)
Lemma spot_blend_not_strict :
  (0 <=? 0)%float = true /\ (0 <? 0x1p-100)%float = true /\
  (0x1p-100 <=? 1)%float = true /\
  spot_blend_conv 0 = Ok 20%float /\ spot_blend_conv 0x1p-100 = Ok 20%float.
Proof. repeat split. Qed.

Lemma light_energy_conversion_witness :
  exists light_node w',
    export_light_node ex_settings (ex_light "POINT") None ex_world =
      (Ok (Some light_node), w') /\
    get_type light_node = Some "OmniLight" /\
    node_attrs light_node !! "light_energy" = Some (VFloat 2.5).
Proof.
  destruct (light_energy_conversion (-250)) as (_ & _ & _ & Hexport & _).
  destruct (Hexport ex_settings (ex_light "POINT") None ex_world eq_refl) as (Hpoint & _).
  exact (Hpoint eq_refl).
Defined.

Lemma export_empty_node_filtered_witness :
  export_empty_node ex_settings_no_empty (ex_empty "tree.tscn")
    (Some (NodeTemplate "Root" "Spatial" None)) ex_world =
    (Ok (Some (NodeTemplate "Root" "Spatial" None)), ex_world) /\
  doc (snd (export_empty_node ex_settings_no_empty (ex_empty "tree.tscn")
              (Some (NodeTemplate "Root" "Spatial" None)) ex_world)) = doc ex_world.
Proof.
  apply (export_empty_node_filtered ex_settings_no_empty (ex_empty "tree.tscn")).
  by_deciding.
Defined.

Lemma export_empty_node_unresolved_scene_witness :
  fst (export_empty_node ex_settings (ex_empty "hut.tscn") None ex_world) =
    Ok (Some (node_set "transform" (VMatrix 7%Z) (NodeTemplate "hut.tscn" "Spatial" None))) /\
  warnings (snd (export_empty_node ex_settings (ex_empty "hut.tscn") None ex_world)) =
    ["Unable to find 'hut.tscn' in project"].
Proof.
  destruct (export_empty_node_unresolved_scene ex_settings (ex_empty "hut.tscn") None
              ex_world "hut.tscn") as (Hrun & _).
  - by_deciding.
  - vm_compute. reflexivity.
  - vm_compute. reflexivity.
  - rewrite Hrun. split; reflexivity.
Defined.




Lemma export_light_node_unknown_kind_witness :
  export_light_node ex_settings (ex_light "AREA") None ex_world =
    (Ok None,
     {| doc := doc ex_world;
        warnings := ["Unknown light type. Use Point, Spot or Sun: Lamp"];
        anim_calls := [mkAnimCall None (LightData (data (ex_light "AREA"))) "light"] |}) /\
  doc (snd (export_light_node ex_settings (ex_light "AREA") None ex_world)) = doc ex_world.
Proof.
  destruct (export_light_node_unknown_kind ex_settings (ex_light "AREA") None ex_world)
    as (Hrun & Hdoc); try discriminate.
  split; [exact Hrun | apply Hdoc; reflexivity].
Defined.



(** ** Runs of the further properties *)

Lemma export_empty_node_search_disabled_witness :
  exists empty_node w',
    export_empty_node ex_settings_no_search (ex_empty "tree.tscn") None ex_world =
      (Ok (Some empty_node), w') /\
    node_heading empty_node = HType "Spatial" /\
    nodes (doc w') = (nodes (doc ex_world) ++ [empty_node])%list /\
    external_resources (doc w') = external_resources (doc ex_world) /\
    external_hashes (doc w') = external_hashes (doc ex_world).
Proof.
  apply (export_empty_node_search_disabled ex_settings_no_search (ex_empty "tree.tscn")
           None ex_world).
  - by_deciding.
  - right. split; discriminate.
Defined.



Lemma export_light_node_node_witness :
  exists light_node w',
    export_light_node ex_settings (ex_light "POINT") None ex_world =
      (Ok (Some light_node), w') /\
    node_name light_node = "Lamp" /\
    node_heading light_node = HType "OmniLight" /\
    node_attrs light_node !! "light_color" = Some (VColor 6%Z) /\
    node_attrs light_node !! "transform" = Some (VMatrix (-7)%Z) /\
    node_attrs light_node !! "shadow_enabled" = Some (VBool true) /\
    warnings w' = [].
Proof.
  destruct (export_light_node ex_settings (ex_light "POINT") None ex_world)
    as [[[light_node|]|e] w'] eqn:Hrun;
    [|vm_compute in Hrun; discriminate..].
  exists light_node, w'. split; [reflexivity|].
  destruct (export_light_node_node _ _ _ _ _ _ Hrun)
    as (Hname & _ & Hkind & _ & Hcolor & _ & Htransform & Hshadow & Hwarn & _).
  repeat split; try assumption.
  destruct Hkind as [[_ Hh]|[[Hk _]|[Hk _]]]; [exact Hh|discriminate..].
Defined.

Lemma export_light_node_attribute_names_witness :
  exists light_node w',
    export_light_node ex_settings (ex_light "SPOT") None ex_world =
      (Ok (Some light_node), w') /\
    dom (node_attrs light_node) =
      ({[ "light_specular"; "light_color"; "shadow_color"; "light_energy";
          "transform"; "light_negative"; "shadow_enabled" ]} ∪
       {[ "spot_angle"; "spot_angle_attenuation"; "spot_range" ]} : gset string).
Proof.
  destruct (export_light_node ex_settings (ex_light "SPOT") None ex_world)
    as [[[light_node|]|e] w'] eqn:Hrun;
    [|vm_compute in Hrun; discriminate..].
  exists light_node, w'. split; [reflexivity|].
  exact (export_light_node_attribute_names _ _ _ _ _ _ Hrun).
Defined.

Lemma export_light_node_energy_sign_witness :
  exists light_node w' energy,
    export_light_node ex_settings (ex_light "POINT") None ex_world =
      (Ok (Some light_node), w') /\
    node_attrs light_node !! "light_energy" = Some (VFloat energy) /\
    (energy <? 0)%float = false /\
    node_attrs light_node !! "light_negative" = Some (VBool true).
Proof.
  destruct (export_light_node ex_settings (ex_light "POINT") None ex_world)
    as [[[light_node|]|e] w'] eqn:Hrun;
    [|vm_compute in Hrun; discriminate..].
  destruct (export_light_node_energy_sign _ _ _ _ _ _ Hrun)
    as (energy & Henergy & Hsign & Hnegative).
  exists light_node, w', energy. repeat split; assumption.
Defined.

Lemma export_sun_energy_round_trip_witness :
  exists light_node w' energy negative,
    export_light_node ex_settings (ex_light "SUN") None ex_world =
      (Ok (Some light_node), w') /\
    node_attrs light_node !! "light_energy" = Some (VFloat energy) /\
    node_attrs light_node !! "light_negative" = Some (VBool negative) /\
    ((if negative then - energy else energy) =? -250)%float = true.
Proof.
  apply (export_sun_energy_round_trip ex_settings (ex_light "SUN") None ex_world);
    reflexivity.
Defined.

Lemma export_light_node_raises_witness :
  export_light_node ex_settings (ex_spot (-0.01)) None ex_world =
    (Raise ZeroDivisionError, ex_world).
Proof.
  destruct (export_light_node_raises ex_settings (ex_spot (-0.01)) None ex_world)
    as [Hiff Hraise].
  destruct (proj2 Hiff) as [e He]; [split; reflexivity|].
  exact (Hraise e He).
Defined.

Lemma re_match_scene_idempotent_witness :
  re_match_scene "tree.tscn.001" = Some "tree.tscn" /\
  re_match_scene "tree.tscn" = Some "tree.tscn".
Proof.
  split; [reflexivity|].
  apply (re_match_scene_idempotent "tree.tscn.001"). reflexivity.
Defined.
